(** * Neifuisann/server-deno: the audio path and the connection gate

    A shallow embedding of [src/services/supabase.ts] and of the server
    entry point that follows it in the same source file: the TTS frame
    buffer ([createTtsBuffer]), the microphone [AudioFilter], the volume
    boost, the HTTP upgrade handler, the SIGINT handler and
    [getChatHistory]. *)

From Stdlib Require Import ZArith Floats Ascii.
From stdpp Require Import prelude strings sorting.

Set Default Proof Using "Type".

(** ** Outgoing audio: [createTtsBuffer] *)

Module FrameEncoder.

(** A [Uint8Array] is a list of bytes; an encoded Opus packet is one too. *)
Abbreviation bytes := (list Byte.byte).

Section WithEncoder.

(** [TTS_FRAME_SIZE_BYTES] is imported from [config.ts], which is not
    among the sources: a byte count fixed at start-up, left open here. *)
Variable TTS_FRAME_SIZE_BYTES : nat.

(** [ttsEncoder] is the module-level Opus encoder.  It keeps codec
    state between calls, and [ttsEncoder.encode] either returns a
    packet or throws; the exception is caught around the call and only
    logged, so an outcome is [None] for a throw. *)
Context {Encoder : Type}.
Variable encode : Encoder → bytes → Encoder * option bytes.

Abbreviation F := TTS_FRAME_SIZE_BYTES.

(** The closure of [createTtsBuffer] owns [leftover]; the encoder is
    shared, and threaded here with it. *)
Record TtsState := mkTts { leftover : bytes; ttsEncoder : Encoder }.

Definition createTtsBuffer (enc : Encoder) : TtsState :=
  {| leftover := []; ttsEncoder := enc |}.

(** [a.subarray(b, e)] and [a.subarray(b)]. *)
Definition subarray (a : bytes) (b e : nat) : bytes := take (e - b) (drop b a).
Definition subarray_from (a : bytes) (b : nat) : bytes := drop b a.

(** The [while] loop of [encodePcmChunk].  Every round moves [offset]
    by [F], so the loop can only spin for ever when [F = 0]; [fuel]
    bounds the rounds and [None] stands for a loop that does not
    exit. *)
Fixpoint encode_loop (fuel : nat) (combined : bytes) (offset : nat)
    (enc : Encoder) (frames : list bytes) : option (nat * Encoder * list bytes) :=
  match fuel with
  | O => None
  | S fuel' =>
      if decide (offset + F ≤ length combined) then
        let slice := subarray combined offset (offset + F) in
        let offset := offset + F in
        match encode enc slice with
        | (enc', Some opusData) =>
            encode_loop fuel' combined offset enc' (frames ++ [opusData])
        | (enc', None) =>
            encode_loop fuel' combined offset enc' frames
        end
      else Some (offset, enc, frames)
  end.

(** What one call gives back: the returned [frames], the closure's
    new state, and the final value of the local [offset] (the bytes
    that went into complete windows; the source does not return it). *)
Record ChunkResult := mkChunk {
  frames : list bytes;
  consumed : nat;
  after : TtsState
}.

Definition encodePcmChunk (st : TtsState) (rawPcm : bytes) : option ChunkResult :=
  let combined := leftover st ++ rawPcm in
  '(offset, enc', frames) ← encode_loop (S (length combined)) combined 0 (ttsEncoder st) [];
  Some {| frames := frames;
          consumed := offset;
          after := {| leftover := subarray_from combined offset; ttsEncoder := enc' |} |}.

Definition reset (st : TtsState) : TtsState :=
  {| leftover := []; ttsEncoder := ttsEncoder st |}.

(** A run of successive [encodePcmChunk] calls on one buffer: all the
    frames in order, the bytes consumed in total, the final state. *)
Fixpoint appends (st : TtsState) (calls : list bytes) : option (list bytes * nat * TtsState) :=
  match calls with
  | [] => Some ([], 0, st)
  | rawPcm :: rest =>
      r ← encodePcmChunk st rawPcm;
      '(fs, n, st') ← appends (after r) rest;
      Some (frames r ++ fs, consumed r + n, st')
  end.

(** The two operations of the returned object. *)
Inductive Op := Append (rawPcm : bytes) | Reset.

Definition step (st : TtsState) (op : Op) : option TtsState :=
  match op with
  | Append rawPcm => after <$> encodePcmChunk st rawPcm
  | Reset => Some (reset st)
  end.

(** The state after each operation of a sequence, in order. *)
Fixpoint run (st : TtsState) (ops : list Op) : option (list TtsState) :=
  match ops with
  | [] => Some []
  | op :: rest => st' ← step st op; (st' ::.) <$> run st' rest
  end.

(** *** The frames as the description has them

    The first [n] non-overlapping windows of [F] bytes, the encoder
    applied to each in turn, and the outcomes that are packets. *)
Fixpoint windows (n : nat) (l : bytes) : list bytes :=
  match n with
  | O => []
  | S n' => take F l :: windows n' (drop F l)
  end.

Fixpoint encode_each (enc : Encoder) (ws : list bytes) : Encoder * list (option bytes) :=
  match ws with
  | [] => (enc, [])
  | w :: rest =>
      let '(enc', o) := encode enc w in
      let '(enc'', os) := encode_each enc' rest in
      (enc'', o :: os)
  end.

Definition successes (os : list (option bytes)) : list bytes := omap id os.

End WithEncoder.

Arguments createTtsBuffer {Encoder} enc.
Arguments reset {Encoder} st.

(** The bytes handed to a run of calls, counted over the calls. *)
Definition totalBytesSupplied (calls : list bytes) : nat :=
  sum_list (length <$> calls).

(** A stand-in codec for running the buffer on concrete bytes: its state
    counts the windows it was given, a packet is the first byte of the
    window, and the window numbered [bad] (from 0) makes it throw. *)
Definition counting_encode (bad : nat) (seen : nat) (w : bytes) : nat * option bytes :=
  (S seen, if decide (seen = bad) then None else Some (take 1 w)).

Definition pcm (ns : list nat) : bytes :=
  (λ n, default Byte.x00 (Byte.of_nat n)) <$> ns.

End FrameEncoder.

(** ** JavaScript numbers and typed arrays

    A JavaScript [number] is an IEEE 754 binary64 value, which is what
    the primitive [float] is: [+], [-], [*], [/] and [<] below are the
    operations the program runs. *)

Module JsNumber.

Local Open Scope float_scope.

(** The number read from an [Int16Array] element. *)
Definition of_int16 (z : Z) : float :=
  if (z <? 0)%Z then - PrimFloat.of_uint63 (Uint63.of_Z (- z))
  else PrimFloat.of_uint63 (Uint63.of_Z z).

(** [Math.max] and [Math.min] on two arguments: NaN if either is NaN;
    otherwise the first unless the second is strictly beyond it, with
    [+0] above [-0]. *)
Definition Math_max (a b : float) : float :=
  if is_nan a || is_nan b then nan
  else if a <? b then b
  else if is_zero a && is_zero b && get_sign a then b
  else a.

Definition Math_min (a b : float) : float :=
  if is_nan a || is_nan b then nan
  else if b <? a then b
  else if is_zero a && is_zero b && get_sign b then b
  else a.

(** The integer part of a finite number (rounding towards zero). *)
Definition truncate (x : float) : option Z :=
  match Prim2SF x with
  | S754_zero _ => Some 0%Z
  | S754_finite s m e =>
      let int := Z.shiftl (Z.pos m) e in
      Some (if s then (- int)%Z else int)
  | S754_infinity _ | S754_nan => None
  end.

(** [ToInt16], the conversion done by a store into an [Int16Array]:
    0 for NaN and the infinities, otherwise the integer part modulo
    [2^16], read as a signed 16-bit value. *)
Definition ToInt16 (x : float) : Z :=
  match truncate x with
  | None => 0
  | Some int =>
      let int16bit := (int mod 65536)%Z in
      if (32768 <=? int16bit)%Z then (int16bit - 65536)%Z else int16bit
  end.

(** The clip both loops apply: [Math.max(-32768, Math.min(32767, v))]. *)
Definition clip (v : float) : float := Math_max (-32768) (Math_min 32767 v).

(** The description's clip: to the closed range [-32768, 32767], and
    then the integer part (0 where there is none). *)
Definition hard_clip (v : float) : float :=
  if v <? -32768 then -32768 else if 32767 <? v then 32767 else v.

Definition clip_and_truncate (v : float) : Z := default 0%Z (truncate (hard_clip v)).

Definition is_int16 (z : Z) : Prop := (-32768 ≤ z ≤ 32767)%Z.

(** [p] on [n] consecutive integers from [z] on. *)
Fixpoint all_from (n : nat) (z : Z) (p : Z → bool) : bool :=
  match n with
  | O => true
  | S n' => p z && all_from n' (z + 1)%Z p
  end.

End JsNumber.

(** ** Incoming audio: [AudioFilter] *)

Module AudioFilter.
Import JsNumber.

Local Open Scope float_scope.

(** The fields of the class. *)
Record AudioFilter := mkFilter {
  highpassAlpha : float;
  lowpassAlpha : float;
  prevInputHighpass : float;
  prevOutputHighpass : float;
  prevOutputLowpass : float
}.

Definition Math_PI : float := 0x1.921fb54442d18p+1.

Section WithTan.

(** [Math.tan] is an implementation-approximated function of the
    engine. *)
Variable Math_tan : float → float.

(** [constructor(sampleRate = MIC_SAMPLE_RATE)]. *)
Definition new_AudioFilter (sampleRate : float) : AudioFilter :=
  let highpass_cutoff := 300 in
  let lowpass_cutoff := 3500 in
  {| highpassAlpha := 1 / (1 + Math_tan (Math_PI * highpass_cutoff / sampleRate));
     lowpassAlpha := Math_tan (Math_PI * lowpass_cutoff / sampleRate)
                     / (1 + Math_tan (Math_PI * lowpass_cutoff / sampleRate));
     prevInputHighpass := 0;
     prevOutputHighpass := 0;
     prevOutputLowpass := 0 |}.

End WithTan.

(** The body of the [for] loop at index [i]: the new fields and the
    value stored into [samples[i]]. *)
Definition loop_body (this : AudioFilter) (sample : Z) : AudioFilter * Z :=
  (* highpass *)
  let inHigh := of_int16 sample in
  let outHigh :=
    highpassAlpha this * (prevOutputHighpass this + inHigh - prevInputHighpass this) in
  let this := {| highpassAlpha := highpassAlpha this; lowpassAlpha := lowpassAlpha this;
                 prevInputHighpass := inHigh;
                 prevOutputHighpass := outHigh;
                 prevOutputLowpass := prevOutputLowpass this |} in
  (* lowpass *)
  let inLow := outHigh in
  let outLow :=
    lowpassAlpha this * inLow + (1 - lowpassAlpha this) * prevOutputLowpass this in
  let this := {| highpassAlpha := highpassAlpha this; lowpassAlpha := lowpassAlpha this;
                 prevInputHighpass := prevInputHighpass this;
                 prevOutputHighpass := prevOutputHighpass this;
                 prevOutputLowpass := outLow |} in
  (* gain *)
  let finalOut := outLow * 8 in
  (* clip *)
  let finalOut := Math_max (-32768) (Math_min 32767 finalOut) in
  (this, ToInt16 finalOut).

(** [for (let i = 0; i < samples.length; i++)], from index [i] on; the
    loop runs at most [samples.length] rounds, which bounds [rounds]. *)
Fixpoint filter_loop (rounds i : nat) (this : AudioFilter) (samples : list Z)
    : AudioFilter * list Z :=
  match rounds with
  | O => (this, samples)
  | S rounds' =>
      match samples !! i with
      | None => (this, samples)
      | Some sample =>
          let '(this, stored) := loop_body this sample in
          filter_loop rounds' (S i) this (<[i := stored]> samples)
      end
  end.

(** [processAudioInPlace(buffer)]: [samples] is the [Int16Array] view of
    the buffer, changed in place; the result is the object's new fields
    and the view's new contents.  (How the view lies over the bytes of
    [buffer] is the platform's business and is not modelled.) *)
Definition processAudioInPlace (this : AudioFilter) (samples : list Z)
    : AudioFilter * list Z :=
  filter_loop (length samples) 0 this samples.

(** *** The cascade as the description has it *)

Record FilterState := mkState {
  st_highpassAlpha : float;
  st_lowpassAlpha : float;
  prevInputHP : Z;
  prevOutputHP : float;
  prevOutputLP : float
}.

Definition filter_sample (s : FilterState) (x : Z) : FilterState * Z :=
  let yHP := st_highpassAlpha s * (prevOutputHP s + of_int16 x - of_int16 (prevInputHP s)) in
  let yLP := st_lowpassAlpha s * yHP + (1 - st_lowpassAlpha s) * prevOutputLP s in
  let out := yLP * 8 in
  ({| st_highpassAlpha := st_highpassAlpha s; st_lowpassAlpha := st_lowpassAlpha s;
      prevInputHP := x; prevOutputHP := yHP; prevOutputLP := yLP |},
   clip_and_truncate out).

(** Each sample in order, the state carried from one to the next. *)
Fixpoint filter_all (s : FilterState) (xs : list Z) : FilterState * list Z :=
  match xs with
  | [] => (s, [])
  | x :: xs' =>
      let '(s', y) := filter_sample s x in
      let '(s'', ys) := filter_all s' xs' in
      (s'', y :: ys)
  end.

Definition initial_state (tan : float → float) (Fs : float) : FilterState :=
  {| st_highpassAlpha := 1 / (1 + tan (Math_PI * 300 / Fs));
     st_lowpassAlpha := tan (Math_PI * 3500 / Fs) / (1 + tan (Math_PI * 3500 / Fs));
     prevInputHP := 0; prevOutputHP := 0; prevOutputLP := 0 |}.

(** The object whose fields hold a given state. *)
Definition fields_of (s : FilterState) : AudioFilter :=
  {| highpassAlpha := st_highpassAlpha s; lowpassAlpha := st_lowpassAlpha s;
     prevInputHighpass := of_int16 (prevInputHP s);
     prevOutputHighpass := prevOutputHP s;
     prevOutputLowpass := prevOutputLP s |}.

End AudioFilter.

(** ** Outgoing audio: [boostTtsVolumeInPlace] *)

Module VolumeShaper.
Import JsNumber.

Local Open Scope float_scope.

(** One round of the loop: the value stored into [samples[i]]. *)
Definition boost_body (safeFactor : float) (sample : Z) : Z :=
  let val := of_int16 sample * safeFactor in
  (* Clip the amplified value *)
  let val := Math_max (-32768) (Math_min 32767 val) in
  ToInt16 val.

Fixpoint boost_loop (rounds i : nat) (safeFactor : float) (samples : list Z) : list Z :=
  match rounds with
  | O => samples
  | S rounds' =>
      match samples !! i with
      | None => samples
      | Some sample =>
          boost_loop rounds' (S i) safeFactor (<[i := boost_body safeFactor sample]> samples)
      end
  end.

(** [boostTtsVolumeInPlace(buffer, factor = 2.0)]; [None] is a call
    that leaves [factor] out. *)
Definition boostTtsVolumeInPlace (samples : list Z) (factor : option float) : list Z :=
  let factor := default 2 factor in
  (* Ensure factor is positive *)
  let safeFactor := Math_max 0 factor in
  boost_loop (length samples) 0 safeFactor samples.

(** The description's [boostInPlace]: the factor clamped to
    [max(0, factor)], and per sample [sample * factor] clipped and
    truncated. *)
Definition boostInPlace (samples : list Z) (factor : float) : list Z :=
  let clamped := Math_max 0 factor in
  (λ sample, clip_and_truncate (of_int16 sample * clamped)) <$> samples.

End VolumeShaper.

(** ** JavaScript strings *)

Module JsString.

Local Open Scope string_scope.

Fixpoint startsWith (s pat : string) {struct pat} : bool :=
  match pat, s with
  | EmptyString, _ => true
  | String p pat', String c s' => if Ascii.eqb p c then startsWith s' pat' else false
  | String _ _, EmptyString => false
  end.

Fixpoint skip (n : nat) (s : string) : string :=
  match n, s with
  | O, _ => s
  | S n', String _ s' => skip n' s'
  | S _, EmptyString => EmptyString
  end.

(** [s.replace(pat, rep)] with a string pattern: the first occurrence
    of [pat], scanning from the left, is replaced; a string without
    one is returned as it is.  ([rep] is taken literally: the
    replacement the program passes has no [$] in it.) *)
Fixpoint replace (s pat rep : string) : string :=
  if startsWith s pat then rep ++ skip (String.length pat) s
  else match s with
       | EmptyString => EmptyString
       | String c s' => String c (replace s' pat rep)
       end.

(** [s.includes(pat)]. *)
Fixpoint includes (s pat : string) : bool :=
  if startsWith s pat then true
  else match s with
       | EmptyString => false
       | String _ s' => includes s' pat
       end.

(** [a || b] where [a] may be [null] or [undefined]: [a] when it is a
    non-empty string, otherwise [b]. *)
Definition or_else (a : option string) (b : option string) : option string :=
  match a with
  | Some (String _ _) => a
  | _ => b
  end.

(** A string in a template literal: [undefined] prints as such. *)
Definition interpolate (a : option string) : string := default "undefined" a.

Definition CRLF : string := String "013"%char (String "010"%char EmptyString).
Definition DQUOTE : string := String "034"%char EmptyString.

End JsString.

(** ** The upgrade handler: [server.on("upgrade", ...)] *)

Module ConnectionGate.
Import JsString.

Local Open Scope string_scope.

(** What the handler reads of [req], and the [Upgrade] header, which
    the ws library reads when it is handed the request. *)
Record Request := mkRequest {
  req_url : option string;
  headers_host : option string;
  headers_authorization : option string;
  remoteAddress : option string;
  headers_upgrade : option string
}.

(** A thrown value: an [Error] with its message, or anything else. *)
Inductive Thrown := ErrorObject (message : string) | OtherValue.

(** The third argument of [createClient]. *)
Record ClientOptions := { global_headers_Authorization : string }.

(** What the ws library does to the socket it is handed. *)
Inductive SocketOp := WsWrite (data : string) | WsDestroy.

Section WithCollaborators.

(** The WHATWG [URL] parser; [new URL] throws on input it rejects. *)
Context {URL : Type}.
Variable new_URL : string → string → Thrown + URL.
Variable searchParams_get : URL → string → option string.

(** [Deno.env.get] and supabase-js's [createClient]. *)
Variable Deno_env_get : string → option string.
Context {SupabaseClient : Type}.
Variable createClient : option string → option string → ClientOptions → Thrown + SupabaseClient.

(** [authenticateUser] of [utils.ts], which is not among the sources:
    the promise it returns resolves to some value or rejects.  Reading
    [user.email] of that value gives the address, or [undefined], or
    throws a [TypeError] when the value is [null] or [undefined]. *)
Context {User : Type}.
Variable authenticateUser : SupabaseClient → string → Thrown + User.
Variable user_email : User → Thrown + option string.

(** [wss.handleUpgrade(req, socket, head, cb)] of the ws library: it
    completes the handshake and calls [cb] with the new socket, or
    answers the request itself without calling [cb], or throws.
    [ws_socket req] is what it does to the socket on the way: the 101
    response of a completed handshake, the answer and the end of the
    socket when it refuses one. *)
Context {WebSocket : Type}.
Inductive UpgradeOutcome :=
  | Upgraded (ws : WebSocket)
  | NotUpgraded
  | UpgradeThrown (e : Thrown).
Variable handleUpgrade : Request → UpgradeOutcome.
Variable ws_socket : Request → list SocketOp.

(** [new Date().toISOString()] at the time of the callback. *)
Variable now : string.

(** The second argument of the ["connection"] event. *)
Record Context := mkContext {
  user : User;
  supabase : SupabaseClient;
  timestamp : string
}.

(** The listeners of the ["connection"] event, set up by
    [websocket_handler.ts], which is not among the sources.
    [wss.emit] runs them before it returns, and throws what one of
    them throws. *)
Variable listeners : WebSocket → Context → Thrown + unit.

(** What happens to the world, in order. *)
Inductive Effect :=
  | ConsoleLog (msg : string)
  | ConsoleError (msg : string)
  | SocketWrite (data : string)
  | SocketDestroy
  | EmitConnection (ws : WebSocket) (ctx : Context).

(** Effects so far, and a result or the value thrown. *)
Definition M (A : Type) : Type := list Effect * (Thrown + A).

#[global] Instance M_ret : MRet M := λ A a, ([], inr a).

#[global] Instance M_bind : MBind M := λ A B k m,
  match m with
  | (es, inl e) => (es, inl e)
  | (es, inr a) => let '(es', r) := k a in ((es ++ es')%list, r)
  end.

Definition effect (e : Effect) : M unit := ([e], inr tt).

Definition call {A} (r : Thrown + A) : M A := ([], r).

Definition try_catch {A} (m : M A) (handler : Thrown → M A) : M A :=
  match m with
  | (es, inl e) => let '(es', r) := handler e in ((es ++ es')%list, r)
  | (es, inr a) => (es, inr a)
  end.

(** [getSupabaseClient] of [supabase.ts]. *)
Definition getSupabaseClient (userJwt : string) : Thrown + SupabaseClient :=
  let supabaseUrl := Deno_env_get "SUPABASE_URL" in
  let supabaseKey := Deno_env_get "SUPABASE_KEY" in
  createClient supabaseUrl supabaseKey
    {| global_headers_Authorization := "Bearer " ++ userJwt |}.

(** [url.searchParams.get("token") ||
     req.headers.authorization?.replace("Bearer ", "") || ""]. *)
Definition token_of (url : URL) (req : Request) : string :=
  default ""
    (or_else
       (or_else (searchParams_get url "token")
                ((λ a, replace a "Bearer " "") <$> headers_authorization req))
       (Some "")).

Definition challenge_response : string :=
  "HTTP/1.1 401 Unauthorized" ++ CRLF ++
  "WWW-Authenticate: Bearer realm=" ++ DQUOTE ++ "Access to WebSocket" ++ DQUOTE ++ CRLF ++
  CRLF.

Definition unauthorized_response : string :=
  "HTTP/1.1 401 Unauthorized" ++ CRLF ++ CRLF.

(** The socket traffic of the ws library, as effects. *)
Definition socket_effect (op : SocketOp) : Effect :=
  match op with
  | WsWrite data => SocketWrite data
  | WsDestroy => SocketDestroy
  end.

Definition ws_effects (req : Request) : list Effect := socket_effect <$> ws_socket req.

(** [wss.emit("connection", ws, ctx)]: the event is delivered, and a
    listener that throws makes [emit] throw. *)
Definition emit_connection (ws : WebSocket) (ctx : Context) : M unit :=
  effect (EmitConnection ws ctx);;
  call (listeners ws ctx).

(** The body of the [try]. *)
Definition upgrade_try (req : Request) : M unit :=
  url ← call (new_URL (default "/" (or_else (req_url req) None))
                      ("ws://" ++ interpolate (headers_host req)));
  let token := token_of url req in
  if decide (token = "") then
    effect (ConsoleLog "Upgrade failed: No token provided.");;
    effect (SocketWrite challenge_response);;
    effect SocketDestroy;;
    mret tt
  else
    (* Create a Supabase client scoped to the token for authentication *)
    supabase ← call (getSupabaseClient token);
    (* Authenticate using the token *)
    user ← call (authenticateUser supabase token);
    email ← call (user_email user);
    effect (ConsoleLog ("User authenticated via token: " ++ interpolate email));;
    (* Proceed with WebSocket upgrade, passing context to the connection handler *)
    (ws_effects req, inr tt);;
    match handleUpgrade req with
    | Upgraded ws =>
        effect (ConsoleLog "WebSocket upgrade successful, emitting connection event.");;
        emit_connection ws {| user := user; supabase := supabase; timestamp := now |}
    | NotUpgraded => mret tt
    | UpgradeThrown e => call (inl e)
    end.

(** The body of the [catch]. *)
Definition upgrade_catch (err : Thrown) : M unit :=
  (match err with
   | ErrorObject message =>
       if includes message "Authentication failed"
       then effect (ConsoleError ("Authentication failed: " ++ message))
       else effect (ConsoleError "Upgrade handler error:")
   | OtherValue => effect (ConsoleError "Upgrade handler error:")
   end);;
  (* Send 401 on any failure during upgrade/auth *)
  effect (SocketWrite unauthorized_response);;
  effect SocketDestroy.

Definition on_upgrade (req : Request) : M unit :=
  effect (ConsoleLog ("Incoming upgrade request from: " ++ interpolate (remoteAddress req)));;
  try_catch (upgrade_try req) upgrade_catch.

(** *** What a caller and the orchestrator see *)

(** The bytes written to the socket, in order. *)
Definition wire (es : list Effect) : list string :=
  omap (λ e, match e with SocketWrite data => Some data | _ => None end) es.

Definition destroyed (es : list Effect) : bool :=
  existsb (λ e, match e with SocketDestroy => true | _ => false end) es.

(** The connection events handed to the orchestrator. *)
Definition connections (es : list Effect) : list (WebSocket * Context) :=
  omap (λ e, match e with EmitConnection ws ctx => Some (ws, ctx) | _ => None end) es.

(** The credential as the description has it: the query token, or else
    the authorization header without its [Bearer ] prefix. *)
Definition stripPrefix (s pat : string) : string :=
  if startsWith s pat then skip (String.length pat) s else s.

Definition described_credential (url : URL) (req : Request) : string :=
  default ""
    (or_else
       (or_else (searchParams_get url "token")
                ((λ a, stripPrefix a "Bearer ") <$> headers_authorization req))
       (Some "")).

End WithCollaborators.

(** *** Stand-in collaborators, for running the handler

    A URL is kept as its text; the parser rejects a scheme-relative
    reference with no host (["//"]) and takes the query token to be
    what follows the first ["token="], up to the next ["&"]. *)
Module Demo.

Fixpoint after (s pat : string) : option string :=
  if startsWith s pat then Some (skip (String.length pat) s)
  else match s with
       | EmptyString => None
       | String _ s' => after s' pat
       end.

Fixpoint until (s : string) (c : ascii) : string :=
  match s with
  | EmptyString => EmptyString
  | String a s' => if Ascii.eqb a c then EmptyString else String a (until s' c)
  end.

Definition new_URL (input base : string) : Thrown + string :=
  if startsWith input "//" then inl (ErrorObject "Invalid URL") else inr (base ++ input).

Definition searchParams_get (url name : string) : option string :=
  (λ rest, until rest "&"%char) <$> after url (name ++ "=").

Definition Deno_env_get (name : string) : option string :=
  if decide (name = "SUPABASE_URL") then Some "https://project.supabase.co"
  else if decide (name = "SUPABASE_KEY") then Some "anon-key"
  else None.

Definition createClient (supabaseUrl supabaseKey : option string) (options : ClientOptions)
    : Thrown + (string * string * ClientOptions) :=
  match supabaseUrl, supabaseKey with
  | Some u, Some k => inr (u, k, options)
  | None, _ => inl (ErrorObject "supabaseUrl is required.")
  | _, None => inl (ErrorObject "supabaseKey is required.")
  end.

(** A user is the address, and [None] is [undefined].  The stand-in
    accepts ["jwt-of-ada"], and ["jwt-of-nobody"], a token that
    verifies for an address without a row in [users], for which the
    promise resolves to [undefined] (what [getUserByEmail] returns
    then). *)
Definition authenticateUser (client : string * string * ClientOptions) (token : string)
    : Thrown + option string :=
  if decide (token = "jwt-of-ada") then inr (Some "ada@example.org")
  else if decide (token = "jwt-of-nobody") then inr None
  else inl (ErrorObject "Authentication failed: invalid token").

Definition user_email (u : option string) : Thrown + option string :=
  match u with
  | Some address => inr (Some address)
  | None => inl (ErrorObject "Cannot read properties of undefined (reading 'email')")
  end.

Definition switching_protocols : string :=
  "HTTP/1.1 101 Switching Protocols" ++ CRLF ++
  "Upgrade: websocket" ++ CRLF ++ "Connection: Upgrade" ++ CRLF ++ CRLF.

Definition bad_request : string :=
  "HTTP/1.1 400 Bad Request" ++ CRLF ++ "Connection: close" ++ CRLF ++ CRLF.

(** The ws stand-in completes the handshake of a request that asks for
    [websocket], and answers any other with 400 and ends the socket. *)
Definition handleUpgrade (req : Request) : UpgradeOutcome (WebSocket := nat) :=
  if decide (headers_upgrade req = Some "websocket") then Upgraded 7 else NotUpgraded.

Definition ws_socket (req : Request) : list SocketOp :=
  if decide (headers_upgrade req = Some "websocket") then [WsWrite switching_protocols]
  else [WsWrite bad_request; WsDestroy].

Definition now : string := "2025-01-01T00:00:00.000Z".

(** A listener that returns, and one that throws. *)
Definition listener_returns (ws : nat)
    (ctx : Context (SupabaseClient := string * string * ClientOptions) (User := option string))
    : Thrown + unit := inr tt.

Definition listener_throws (ws : nat)
    (ctx : Context (SupabaseClient := string * string * ClientOptions) (User := option string))
    : Thrown + unit := inl (ErrorObject "Cannot set up the session").

Definition demo_on_upgrade : Request → M unit :=
  ConnectionGate.on_upgrade new_URL searchParams_get Deno_env_get createClient
    authenticateUser user_email handleUpgrade ws_socket now listener_returns.

Definition demo_on_upgrade_listener_throws : Request → M unit :=
  ConnectionGate.on_upgrade new_URL searchParams_get Deno_env_get createClient
    authenticateUser user_email handleUpgrade ws_socket now listener_throws.

Definition request (url : string) (authorization : option string) : Request :=
  {| req_url := Some url; headers_host := Some "toy.example:8080";
     headers_authorization := authorization; remoteAddress := Some "10.0.0.9";
     headers_upgrade := Some "websocket" |}.

(** The same request asking for another protocol. *)
Definition request_h2c (url : string) (authorization : option string) : Request :=
  {| req_url := Some url; headers_host := Some "toy.example:8080";
     headers_authorization := authorization; remoteAddress := Some "10.0.0.9";
     headers_upgrade := Some "h2c" |}.

End Demo.

End ConnectionGate.

(** ** The SIGINT handler: [Deno.addSignalListener("SIGINT", ...)] *)

Module Shutdown.

Local Open Scope string_scope.

(** What the handler and its callbacks do to the world. *)
Inductive Effect :=
  | ConsoleLog (msg : string)
  | ConsoleError (msg : string)
  | ConsoleWarn (msg : string)
  | ServerClose                 (* [server.close(cb)] is called *)
  | WssClose                    (* [wss.close(cb)] is called *)
  | SetTimeout (delay : Z)      (* [setTimeout(cb, delay)] is called *)
  | DenoExit (code : Z).

(** The variables one run of the handler closes over, and whether the
    process has exited (after [Deno.exit] nothing runs any more). *)
Record Closure := mkClosure {
  serversClosed : nat;
  exited : option Z
}.

Definition totalServers : nat := 2. (* HTTP and WebSocket *)

Definition checkExit (c : Closure) : Closure * list Effect :=
  let c := {| serversClosed := S (serversClosed c); exited := exited c |} in
  if decide (totalServers ≤ serversClosed c)%nat then
    ({| serversClosed := serversClosed c; exited := Some 0%Z |},
     [ConsoleLog "All servers closed. Exiting."; DenoExit 0])
  else (c, []).

(** The listener itself: both closes are started and the timer is
    armed before any callback can run. *)
Definition on_SIGINT : Closure * list Effect :=
  ({| serversClosed := 0; exited := None |},
   [ConsoleLog (String "010"%char "Received SIGINT, shutting down...");
    ConsoleLog "Closing HTTP server..."; ServerClose;
    ConsoleLog "Closing WebSocket server..."; WssClose;
    SetTimeout 5000]).

(** What the event loop may run afterwards: the callback of either
    close, with the error it reports if any, or the timer's. *)
Inductive Event :=
  | HttpClosed (err : option string)
  | WssClosed (err : option string)
  | TimerFired.

Definition callback (c : Closure) (ev : Event) : Closure * list Effect :=
  match exited c with
  | Some _ => (c, [])
  | None =>
      match ev with
      | HttpClosed err =>
          let '(c', es) := checkExit c in
          (c', match err with
               | Some e => ConsoleError ("Error closing HTTP server: " ++ e)
               | None => ConsoleLog "HTTP server closed."
               end :: es)
      | WssClosed err =>
          let '(c', es) := checkExit c in
          (c', match err with
               | Some e => ConsoleError ("Error closing WebSocket server: " ++ e)
               | None => ConsoleLog "WebSocket server closed."
               end :: es)
      | TimerFired =>
          ({| serversClosed := serversClosed c; exited := Some 1%Z |},
           [ConsoleWarn "Shutdown timeout reached. Forcing exit."; DenoExit 1])
      end
  end.

Fixpoint callbacks (c : Closure) (evs : list Event) : Closure * list Effect :=
  match evs with
  | [] => (c, [])
  | ev :: rest =>
      let '(c', es) := callback c ev in
      let '(c'', es') := callbacks c' rest in
      (c'', (es ++ es')%list)
  end.

(** A signal, followed by the callbacks in the order they run. *)
Definition shutdown (evs : list Event) : Closure * list Effect :=
  let '(c, es) := on_SIGINT in
  let '(c', es') := callbacks c evs in
  (c', (es ++ es')%list).

Definition is_close (ev : Event) : Prop :=
  match ev with TimerFired => False | _ => True end.

(** The calls among the effects, without the logging. *)
Definition calls (es : list Effect) : list Effect :=
  omap (λ e, match e with
             | ConsoleLog _ | ConsoleError _ | ConsoleWarn _ => None
             | _ => Some e
             end) es.

End Shutdown.

(** ** Conversation history: [getChatHistory] *)

Module ChatHistory.

Local Open Scope string_scope.

(** A row of [conversations]; [created_at] as an instant in
    milliseconds. *)
Record IConversation := mkConversation {
  role : string;
  content : string;
  user_id : string;
  personality_key : option string;
  created_at : Z
}.

(** A thrown value or a PostgREST error object, by its message. *)
Definition Failure := string.

(** *** The query builder of supabase-js

    Each method returns the builder with one more clause; nothing is
    sent before the builder is awaited. *)
Inductive Value := Text (s : string) | Instant (t : Z).

Inductive Filter :=
  | FilterEq (column : string) (value : Value)
  | FilterGte (column : string) (value : Value).

Record Query := mkQuery {
  q_from : string;
  q_select : string;
  q_filters : list Filter;
  q_order : option (string * bool);   (* column, ascending *)
  q_limit : option nat
}.

Definition from (table : string) : Query :=
  {| q_from := table; q_select := ""; q_filters := []; q_order := None; q_limit := None |}.

Definition select (columns : string) (q : Query) : Query :=
  {| q_from := q_from q; q_select := columns; q_filters := q_filters q;
     q_order := q_order q; q_limit := q_limit q |}.

Definition add_filter (f : Filter) (q : Query) : Query :=
  {| q_from := q_from q; q_select := q_select q; q_filters := (q_filters q ++ [f])%list;
     q_order := q_order q; q_limit := q_limit q |}.

Definition eq (column : string) (value : string) : Query → Query :=
  add_filter (FilterEq column (Text value)).

Definition gte (column : string) (value : Z) : Query → Query :=
  add_filter (FilterGte column (Instant value)).

Definition order (column : string) (ascending : bool) (q : Query) : Query :=
  {| q_from := q_from q; q_select := q_select q; q_filters := q_filters q;
     q_order := Some (column, ascending); q_limit := q_limit q |}.

Definition limit (count : nat) (q : Query) : Query :=
  {| q_from := q_from q; q_select := q_select q; q_filters := q_filters q;
     q_order := q_order q; q_limit := Some count |}.

(** What awaiting a query gives: [{ data, error }] with one of the two
    set, or a rejected promise. *)
Inductive Awaited :=
  | Data (data : list IConversation)
  | Error (error : Failure)
  | Rejected (reason : Failure).

Section WithStore.

(** The store behind the client, and the instant that
    [new Date()] with its hours set back by two denotes. *)
Variable await : Query → Awaited.
Variable twoHoursAgo : Z.

(** The body of the [try]: the rows, or what is thrown. *)
Definition getChatHistory_try (userId : string) (personalityKey : option string)
    (isDoctor : bool) : Failure + list IConversation :=
  let query :=
    limit 20 (order "created_at" false (eq "user_id" userId
      (select "*" (from "conversations")))) in
  let query :=
    match personalityKey with
    | Some (String _ _ as key) => eq "personality_key" key query
    | _ => query
    end in
  (* If isDoctor is true, only fetch conversations from the last 2 hours *)
  let query := if isDoctor then gte "created_at" twoHoursAgo query else query in
  match await query with
  | Data data => inr data
  | Error error => inl error
  | Rejected reason => inl reason
  end.

(** [getChatHistory]: the [catch] turns anything thrown into [[]]. *)
Definition getChatHistory (userId : string) (personalityKey : option string)
    (isDoctor : bool) : Failure + list IConversation :=
  match getChatHistory_try userId personalityKey isDoctor with
  | inl _e => inr []
  | inr data => inr data
  end.

End WithStore.

(** *** A store that answers queries

    PostgREST applies every filter of the request, then the ordering,
    then the limit, whatever the order of the builder calls. *)
Definition column (name : string) (r : IConversation) : option Value :=
  if decide (name = "user_id") then Some (Text (user_id r))
  else if decide (name = "personality_key") then Text <$> personality_key r
  else if decide (name = "created_at") then Some (Instant (created_at r))
  else if decide (name = "role") then Some (Text (role r))
  else if decide (name = "content") then Some (Text (content r))
  else None.

Definition satisfies (r : IConversation) (f : Filter) : bool :=
  match f with
  | FilterEq c (Text v) =>
      match column c r with Some (Text x) => bool_decide (x = v) | _ => false end
  | FilterEq c (Instant v) =>
      match column c r with Some (Instant x) => bool_decide (x = v) | _ => false end
  | FilterGte c (Instant v) =>
      match column c r with Some (Instant x) => bool_decide (v ≤ x)%Z | _ => false end
  | FilterGte c (Text v) => false
  end.

(** Newest first, and oldest first. *)
Definition newer_first : relation IConversation := λ a b, (created_at b ≤ created_at a)%Z.
Definition older_first : relation IConversation := λ a b, (created_at a ≤ created_at b)%Z.

#[global] Instance newer_first_dec a b : Decision (newer_first a b) :=
  Z_le_dec (created_at b) (created_at a).
#[global] Instance older_first_dec a b : Decision (older_first a b) :=
  Z_le_dec (created_at a) (created_at b).

Definition ordered (o : option (string * bool)) (rows : list IConversation)
    : list IConversation :=
  match o with
  | Some (c, ascending) =>
      if decide (c = "created_at")
      then (if ascending then merge_sort older_first rows else merge_sort newer_first rows)
      else rows
  | None => rows
  end.

Definition answer (table : list IConversation) (q : Query) : list IConversation :=
  let rows := List.filter (λ r, forallb (satisfies r) (q_filters q)) table in
  let rows := ordered (q_order q) rows in
  match q_limit q with
  | Some n => take n rows
  | None => rows
  end.

(** A store holding [table] that is up, or down with [reason]. *)
Definition store (table : list IConversation) (down : option Failure) (q : Query) : Awaited :=
  match down with
  | Some reason => Error reason
  | None => Data (answer table q)
  end.

End ChatHistory.

(** ** A codec that changes nothing

    Its packets are the slices it is handed, so what [encodePcmChunk]
    returns with it is what the loop passed to [ttsEncoder.encode]. *)

Module PassThrough.

Definition encode (enc : unit) (slice : list Byte.byte) : unit * option (list Byte.byte) :=
  (enc, Some slice).

End PassThrough.

(** ** Saturating integer arithmetic, to compare the loops with *)

Module Int16.

(** The nearest value of the int16 range. *)
Definition saturate (z : Z) : Z := Z.max (-32768) (Z.min 32767 z).

End Int16.

(** ** A conversation table to query *)

Module ChatHistoryDemo.
Import ChatHistory.

Local Open Scope string_scope.

Definition row (t : Z) : IConversation :=
  {| role := "user"; content := "hello"; user_id := "u1";
     personality_key := None; created_at := t |}.

(** 21 rows of one user, one per millisecond. *)
Definition table : list IConversation := row <$> seqZ 0 21.

End ChatHistoryDemo.

(** * Part II: properties *)

(** ** [createTtsBuffer] *)

Module FrameEncoderFacts.
Import FrameEncoder.

Section WithEncoder.

Variable F : nat.
Context {Encoder : Type}.
Variable encode : Encoder → bytes → Encoder * option bytes.

Local Abbreviation encode_loop := (FrameEncoder.encode_loop F encode).
Local Abbreviation encodePcmChunk := (FrameEncoder.encodePcmChunk F encode).
Local Abbreviation appends := (FrameEncoder.appends F encode).
Local Abbreviation step := (FrameEncoder.step F encode).
Local Abbreviation run := (FrameEncoder.run F encode).
Local Abbreviation windows := (FrameEncoder.windows F).
Local Abbreviation encode_each := (FrameEncoder.encode_each encode).

(** *** The loop, window by window *)

Lemma windows_length n l : length (windows n l) = n.
Proof. revert l; induction n as [|n IH]; intros l; simpl; [done | by rewrite IH]. Qed.

Lemma windows_lookup n l i :
  i < n → windows n l !! i = Some (take F (drop (i * F) l)).
Proof.
  revert l i; induction n as [|n IH]; intros l i Hi; [lia|].
  destruct i as [|i]; simpl; [done|].
  rewrite IH by lia. by rewrite drop_drop.
Qed.

Lemma windows_app n m l :
  windows (n + m) l = windows n l ++ windows m (drop (n * F) l).
Proof.
  revert l; induction n as [|n IH]; intros l; simpl; [done|].
  by rewrite IH, drop_drop.
Qed.

Lemma windows_prefix n l l' :
  n * F ≤ length l → windows n (l ++ l') = windows n l.
Proof.
  revert l; induction n as [|n IH]; intros l Hn; simpl; [done|].
  rewrite take_app_le, drop_app_le by lia.
  rewrite IH; [done|]. rewrite length_drop. lia.
Qed.

Lemma encode_each_app enc ws1 ws2 :
  encode_each enc (ws1 ++ ws2) =
    let '(enc1, os1) := encode_each enc ws1 in
    let '(enc2, os2) := encode_each enc1 ws2 in
    (enc2, os1 ++ os2).
Proof.
  revert enc; induction ws1 as [|w ws1 IH]; intros enc; simpl.
  - by destruct (encode_each enc ws2).
  - destruct (encode enc w) as [enc' o]. rewrite IH.
    destruct (encode_each enc' ws1) as [enc1 os1].
    by destruct (encode_each enc1 ws2).
Qed.

Lemma encode_each_length enc ws : length (encode_each enc ws).2 = length ws.
Proof.
  revert enc; induction ws as [|w ws IH]; intros enc; simpl; [done|].
  destruct (encode enc w) as [enc' o]. specialize (IH enc').
  destruct (encode_each enc' ws); simpl in *. by rewrite IH.
Qed.

Lemma successes_app os1 os2 : successes (os1 ++ os2) = successes os1 ++ successes os2.
Proof. apply omap_app. Qed.

(** With [k] complete windows left after [offset] and more than [k]
    rounds allowed, the loop exits after exactly [k] rounds. *)
Lemma encode_loop_windows k : ∀ fuel combined offset enc frames,
  0 < F →
  offset + k * F ≤ length combined →
  length combined < offset + S k * F →
  k < fuel →
  encode_loop fuel combined offset enc frames =
    let '(enc', os) := encode_each enc (windows k (drop offset combined)) in
    Some (offset + k * F, enc', frames ++ successes os).
Proof.
  induction k as [|k IH]; intros fuel combined offset enc frames HF Hlo Hhi Hfuel;
    destruct fuel as [|fuel]; try lia; simpl.
  - rewrite decide_False by lia. by rewrite Nat.add_0_r, app_nil_r.
  - rewrite decide_True by lia. unfold subarray.
    replace (offset + F - offset) with F by lia.
    destruct (encode enc (take F (drop offset combined))) as [enc' [opusData|]];
      rewrite IH by lia; rewrite drop_drop;
      destruct (encode_each enc' (windows k (drop (offset + F) combined))) as [enc'' os];
      unfold successes; simpl; rewrite <- ?app_assoc; do 3 f_equal; lia.
Qed.

(** The loop does not exit when the frame size is zero. *)
Lemma encode_loop_zero fuel combined enc frames :
  FrameEncoder.encode_loop 0 encode fuel combined 0 enc frames = None.
Proof.
  revert enc frames.
  induction fuel as [|fuel IH]; intros enc frames; simpl; [done|].
  destruct (decide (0 ≤ length combined)); [|lia].
  by destruct (encode enc _) as [enc' [opusData|]].
Qed.

(** One call, in terms of the windows of [leftover ++ rawPcm]. *)
Lemma encodePcmChunk_windows st rawPcm :
  0 < F →
  encodePcmChunk st rawPcm =
    let combined := leftover st ++ rawPcm in
    let k := length combined / F in
    let '(enc', os) := encode_each (ttsEncoder st) (windows k combined) in
    Some {| frames := successes os;
            consumed := k * F;
            after := {| leftover := drop (k * F) combined; ttsEncoder := enc' |} |}.
Proof.
  intros HF. unfold encodePcmChunk. cbv zeta.
  set (combined := leftover st ++ rawPcm). set (k := length combined / F).
  assert (k * F ≤ length combined) as Hlo
    by (unfold k; rewrite Nat.mul_comm; apply Nat.Div0.mul_div_le).
  assert (length combined < S k * F) as Hhi.
  { unfold k. pose proof (Nat.mul_succ_div_gt (length combined) F). lia. }
  rewrite (encode_loop_windows k) by (simpl; nia).
  simpl. destruct (encode_each _ _) as [enc' os]. done.
Qed.

Lemma leftover_after_lt st rawPcm r :
  0 < F → encodePcmChunk st rawPcm = Some r → length (leftover (after r)) < F.
Proof.
  intros HF. rewrite encodePcmChunk_windows by done. cbv zeta.
  destruct (encode_each _ _) as [enc' os]. intros [= <-]. simpl.
  rewrite length_drop.
  pose proof (Nat.mul_succ_div_gt (length (leftover st ++ rawPcm)) F). lia.
Qed.

(** A run of calls, in terms of the windows of everything supplied. *)
Lemma appends_windows calls : ∀ st,
  0 < F → length (leftover st) < F →
  appends st calls =
    let input := leftover st ++ concat calls in
    let k := length input / F in
    let '(enc', os) := encode_each (ttsEncoder st) (windows k input) in
    Some (successes os, k * F, {| leftover := drop (k * F) input; ttsEncoder := enc' |}).
Proof.
  induction calls as [|rawPcm rest IH]; intros [l0 enc0] HF Hl0; cbn [appends concat].
  - simpl. rewrite app_nil_r, Nat.div_small by done. by simpl.
  - pose proof (leftover_after_lt (mkTts l0 enc0) rawPcm) as Hinv.
    rewrite encodePcmChunk_windows in * by done. cbv zeta in *. cbn [leftover ttsEncoder] in *.
    set (c := l0 ++ rawPcm) in *. set (k1 := length c / F) in *.
    assert (k1 * F ≤ length c) as Hlo
      by (unfold k1; rewrite Nat.mul_comm; apply Nat.Div0.mul_div_le).
    destruct (encode_each enc0 (windows k1 c)) as [enc1 os1] eqn:E1.
    specialize (Hinv _ HF eq_refl). simpl in Hinv.
    cbn [mbind option_bind frames consumed after].
    rewrite IH by done. cbv zeta. cbn [leftover ttsEncoder].
    rewrite (assoc_L (++) l0 rawPcm). fold c.
    rewrite <- (drop_app_le c (concat rest)) by done.
    set (input := c ++ concat rest).
    assert (length input / F = k1 + length (drop (k1 * F) input) / F) as ->.
    { rewrite length_drop. unfold input. rewrite length_app.
      rewrite length_drop in Hinv.
      replace (length c + length (concat rest))
        with (k1 * F + (length c + length (concat rest) - k1 * F)) at 1 by lia.
      rewrite Nat.div_add_l by lia. done. }
    set (k2 := length (drop (k1 * F) input) / F).
    rewrite windows_app, encode_each_app.
    replace (windows k1 input) with (windows k1 c)
      by (symmetry; by apply windows_prefix).
    rewrite E1. destruct (encode_each enc1 _) as [enc2 os2]. simpl.
    rewrite successes_app, drop_drop. do 3 f_equal; [lia|]. f_equal. lia.
Qed.

Lemma totalBytesSupplied_concat calls :
  totalBytesSupplied calls = length (concat calls).
Proof.
  unfold totalBytesSupplied.
  induction calls as [|c calls IH]; [done|].
  rewrite fmap_cons. cbn [concat]. rewrite length_app, <- IH. done.
Qed.

Lemma appends_fresh enc calls :
  0 < F →
  ∃ fs st,
    appends (createTtsBuffer enc) calls
      = Some (fs, F * (totalBytesSupplied calls / F), st)
    ∧ length (leftover st) = totalBytesSupplied calls `mod` F.
Proof.
  intros HF. rewrite appends_windows by (simpl; lia). cbv zeta. simpl leftover at 1 2 3.
  simpl ttsEncoder. rewrite totalBytesSupplied_concat. simpl app.
  destruct (FrameEncoder.encode_each _ _ _) as [enc' os].
  eexists _, _. split; [by rewrite Nat.mul_comm|]. simpl.
  rewrite length_drop, Nat.Div0.mod_eq. lia.
Qed.

(** C1: on one buffer with frame size [F], any run of [encodePcmChunk]
    calls consumes [F * floor (total / F)] bytes into complete windows
    and ends with [total mod F] bytes left over, [total] being the
    number of bytes supplied; two ways of cutting the same input into
    calls therefore give the same two totals. *)
Theorem chunking_is_insensitive_to_call_granularity enc (calls calls' : list bytes) :
  0 < F →
  concat calls = concat calls' →
  ∃ fs st fs' st',
    appends (createTtsBuffer enc) calls
      = Some (fs, F * (totalBytesSupplied calls / F), st)
    ∧ length (leftover st) = totalBytesSupplied calls `mod` F
    ∧ appends (createTtsBuffer enc) calls'
      = Some (fs', F * (totalBytesSupplied calls / F), st')
    ∧ length (leftover st') = totalBytesSupplied calls `mod` F.
Proof.
  intros HF Hsame.
  destruct (appends_fresh enc calls HF) as (fs & st & H1 & H2).
  destruct (appends_fresh enc calls' HF) as (fs' & st' & H1' & H2').
  assert (totalBytesSupplied calls' = totalBytesSupplied calls) as Htot
    by (by rewrite !totalBytesSupplied_concat, Hsame).
  rewrite Htot in *. by exists fs, st, fs', st'.
Qed.

(** The encoder sees the same windows in the same order however the
    input is cut, so the packets and the final state agree as well. *)
Lemma chunking_same_frames enc (calls calls' : list bytes) :
  0 < F →
  concat calls = concat calls' →
  appends (createTtsBuffer enc) calls = appends (createTtsBuffer enc) calls'.
Proof.
  intros HF Hsame. rewrite !appends_windows by (simpl; lia).
  by rewrite Hsame.
Qed.

Lemma run_invariant ops : ∀ st,
  0 < F →
  ∃ sts, run st ops = Some sts ∧ length sts = length ops
         ∧ Forall (λ st', 0 ≤ length (leftover st') < F) sts.
Proof.
  induction ops as [|op ops IH]; intros st HF; simpl.
  - by exists [].
  - assert (∃ st', step st op = Some st' ∧ length (leftover st') < F)
      as (st' & -> & Hst').
    { destruct op as [rawPcm|]; simpl.
      - pose proof (leftover_after_lt st rawPcm) as Hlt.
        rewrite encodePcmChunk_windows in * by done. cbv zeta in *.
        destruct (FrameEncoder.encode_each _ _ _) as [enc' os].
        eexists; split; [done|]. by apply (Hlt _ HF).
      - by eexists. }
    destruct (IH st' HF) as (sts & Hrun & Hlen & Hall). simpl. rewrite Hrun. simpl.
    exists (st' :: sts). split_and!; [done|by simpl; rewrite Hlen|].
    constructor; [lia|done].
Qed.

(** C4: a fresh buffer satisfies [0 <= len(leftover) < F], and so does
    the state after each operation of any sequence of [encodePcmChunk]
    and [reset] calls; every one of those calls returns. *)
Theorem leftover_shorter_than_a_frame enc (ops : list Op) :
  0 < F →
  0 ≤ length (leftover (createTtsBuffer enc)) < F
  ∧ ∃ sts, run (createTtsBuffer enc) ops = Some sts
           ∧ length sts = length ops
           ∧ Forall (λ st, 0 ≤ length (leftover st) < F) sts.
Proof.
  intros HF. split; [simpl; lia|]. by apply run_invariant.
Qed.

(** C5: a call returns whatever the encoder does.  Every complete
    window of [leftover ++ rawPcm] is handed to the encoder, in order,
    also after one that made it throw; the result is the packets of the
    windows that encoded, in input order, so a throw on window [i]
    removes that window's packet and nothing else; and [leftover]
    starts after the last complete window, failed or not. *)
Theorem failed_window_is_dropped_and_stream_continues st rawPcm :
  0 < F →
  let combined := leftover st ++ rawPcm in
  let k := length combined / F in
  let outcomes := (encode_each (ttsEncoder st) (windows k combined)).2 in
  ∃ r, encodePcmChunk st rawPcm = Some r
    ∧ length outcomes = k
    ∧ frames r = successes outcomes
    ∧ (∀ i, outcomes !! i = Some None →
         frames r = successes (take i outcomes) ++ successes (drop (S i) outcomes))
    ∧ consumed r = k * F
    ∧ leftover (after r) = drop (k * F) combined.
Proof.
  intros HF combined k outcomes. subst outcomes.
  rewrite encodePcmChunk_windows by done. cbv zeta. fold combined k.
  pose proof (encode_each_length (ttsEncoder st) (windows k combined)) as Hlen.
  destruct (FrameEncoder.encode_each _ _ _) as [enc' os]. simpl in *.
  eexists. split; [done|]. simpl. split_and!; try done.
  - by rewrite Hlen, windows_length.
  - intros i Hi.
    rewrite <- (take_drop_middle os i None) at 1 by done.
    by rewrite successes_app.
Qed.

End WithEncoder.

(** C1 on nine bytes and frames of four: three calls or one. *)
Lemma chunking_is_insensitive_witness :
  ∃ fs st fs' st',
    FrameEncoder.appends 4 (counting_encode 1) (createTtsBuffer 0)
        [pcm [1; 2; 3]; pcm [4; 5; 6; 7; 8]; pcm [9]]
      = Some (fs, 4 * (totalBytesSupplied [pcm [1; 2; 3]; pcm [4; 5; 6; 7; 8]; pcm [9]] / 4), st)
    ∧ length (leftover st)
      = totalBytesSupplied [pcm [1; 2; 3]; pcm [4; 5; 6; 7; 8]; pcm [9]] `mod` 4
    ∧ FrameEncoder.appends 4 (counting_encode 1) (createTtsBuffer 0)
        [pcm [1; 2; 3; 4; 5; 6; 7; 8; 9]]
      = Some (fs', 4 * (totalBytesSupplied [pcm [1; 2; 3]; pcm [4; 5; 6; 7; 8]; pcm [9]] / 4), st')
    ∧ length (leftover st')
      = totalBytesSupplied [pcm [1; 2; 3]; pcm [4; 5; 6; 7; 8]; pcm [9]] `mod` 4.
Proof.
  apply (chunking_is_insensitive_to_call_granularity 4 (counting_encode 1) 0
           [pcm [1; 2; 3]; pcm [4; 5; 6; 7; 8]; pcm [9]]
           [pcm [1; 2; 3; 4; 5; 6; 7; 8; 9]]);
    [lia | reflexivity].
Defined.

(** C4 on frames of four bytes: an append, a reset, an append. *)
Lemma leftover_shorter_than_a_frame_witness :
  0 ≤ length (leftover (createTtsBuffer 0)) < 4
  ∧ ∃ sts,
      FrameEncoder.run 4 (counting_encode 1) (createTtsBuffer 0)
        [Append (pcm [1; 2; 3; 4; 5; 6]); Reset; Append (pcm [7; 8; 9])] = Some sts
      ∧ length sts = length [Append (pcm [1; 2; 3; 4; 5; 6]); Reset; Append (pcm [7; 8; 9])]
      ∧ Forall (λ st, 0 ≤ length (leftover st) < 4) sts.
Proof.
  apply (leftover_shorter_than_a_frame 4 (counting_encode 1) 0
           [Append (pcm [1; 2; 3; 4; 5; 6]); Reset; Append (pcm [7; 8; 9])]).
  lia.
Defined.

(** C5 on thirteen bytes and frames of four, the encoder throwing on
    the second window: the packets of the first and third windows come
    back, twelve bytes are consumed and one is left. *)
Lemma failed_window_witness :
  ∃ r, FrameEncoder.encodePcmChunk 4 (counting_encode 1) (createTtsBuffer 0)
         (pcm [1; 2; 3; 4; 5; 6; 7; 8; 9; 10; 11; 12; 13]) = Some r
       ∧ frames r = [pcm [1]; pcm [9]]
       ∧ consumed r = 12
       ∧ leftover (after r) = pcm [13].
Proof.
  destruct (failed_window_is_dropped_and_stream_continues 4 (counting_encode 1)
              (createTtsBuffer 0) (pcm [1; 2; 3; 4; 5; 6; 7; 8; 9; 10; 11; 12; 13]))
    as (r & Hr & _ & Hframes & _ & Hconsumed & Hleft); [lia|].
  exists r. rewrite Hframes, Hconsumed, Hleft. repeat split; [exact Hr | reflexivity..].
Defined.

End FrameEncoderFacts.

(** ** Numbers: the clip and the store *)

Module JsNumberFacts.
Import JsNumber.

Local Open Scope Z_scope.

Lemma digits2_pos_bound m : Z.pos m < 2 ^ Z.pos (digits2_pos m).
Proof.
  induction m as [m IH|m IH|]; simpl digits2_pos; [| |done];
    rewrite Pos2Z.inj_succ, Z.pow_succ_r by lia; lia.
Qed.

(** A finite binary64 value has a mantissa below [2^53]. *)
Lemma mantissa_bound x s m e :
  Prim2SF x = S754_finite s m e → Z.pos m < 2 ^ 53.
Proof.
  intros Hx. pose proof (Prim2SF_valid x) as Hv. rewrite Hx in Hv.
  unfold valid_binary, bounded, canonical_mantissa, fexp in Hv.
  apply andb_prop in Hv as [Hc _]. apply Z.eqb_eq in Hc.
  assert (Z.pos (digits2_pos m) ≤ 53) as Hd by (unfold prec in Hc; lia).
  pose proof (digits2_pos_bound m).
  eapply Z.lt_le_trans; [done|]. by apply Z.pow_le_mono_r.
Qed.

Lemma wrap_int16 n :
  is_int16 n →
  (let int16bit := n mod 65536 in
   if 32768 <=? int16bit then int16bit - 65536 else int16bit) = n.
Proof.
  unfold is_int16. intros Hn. cbv zeta.
  destruct (decide (0 ≤ n)).
  - rewrite Z.mod_small by lia. rewrite (proj2 (Z.leb_gt _ _)) by lia. done.
  - replace (n mod 65536) with (n + 65536).
    + rewrite (proj2 (Z.leb_le _ _)) by lia. lia.
    + apply Z.mod_unique with (-1); lia.
Qed.

Lemma ToInt16_in_range x n :
  truncate x = Some n → is_int16 n → ToInt16 x = n.
Proof. unfold ToInt16. intros -> Hn. by apply wrap_int16. Qed.

(** [clip], comparison by comparison. *)
Lemma clip_cases v :
  clip v =
    if is_nan v then nan
    else if (v <? 32767)%float
         then (if (-32768 <? v)%float then v else (-32768)%float)
         else 32767%float.
Proof.
  unfold clip, Math_min, Math_max.
  change (is_nan 32767) with false. change (is_nan (-32768)) with false.
  change (is_zero 32767) with false. change (is_zero (-32768)) with false.
  simpl orb. simpl andb.
  destruct (is_nan v) eqn:Hnan; [done|].
  destruct (v <? 32767)%float; [by rewrite Hnan|].
  done.
Qed.

(** Without the clip a store wraps around: 40000 is stored as -25536. *)
Example ToInt16_wraps :
  ToInt16 40000 = (-25536)%Z ∧ ToInt16 (clip 40000) = 32767%Z
  ∧ ToInt16 nan = 0%Z ∧ ToInt16 (-1.5) = (-1)%Z.
Proof. by vm_compute. Qed.

Example Math_max_signed_zero :
  Math_max (-0) 0 = 0%float ∧ Math_min 0 (-0) = (-0)%float ∧ Math_max 0 nan = nan.
Proof. by vm_compute. Qed.

(** A store at the index where a list's tail begins. *)
Lemma insert_at_length {A} (l1 l2 : list A) (x y : A) :
  <[length l1 := y]> (l1 ++ x :: l2) = l1 ++ y :: l2.
Proof.
  rewrite <- (Nat.add_0_r (length l1)). by rewrite insert_app_r.
Qed.

Lemma SF_32767 : Prim2SF 32767 = S754_finite false 9006924376834048 (-38).
Proof. reflexivity. Qed.

Lemma SF_minus_32768 : Prim2SF (-32768) = S754_finite true 4503599627370496 (-37).
Proof. reflexivity. Qed.

(** A finite value strictly inside (-32768, 32768) has its integer part
    in the int16 range. *)
Lemma truncate_small x s m e :
  Prim2SF x = S754_finite s m e →
  e < 0 → Z.pos m < 2 ^ (- e) * 32768 →
  ∃ n, truncate x = Some n ∧ is_int16 n.
Proof.
  intros Hx He Hm. unfold truncate. rewrite Hx. cbv zeta.
  rewrite Z.shiftl_div_pow2 by lia.
  assert (0 < 2 ^ (- e)) by (apply Z.pow_pos_nonneg; lia).
  assert (0 ≤ Z.pos m / 2 ^ (- e) < 32768) as Hb.
  { split; [apply Z.div_pos; lia | by apply Z.div_lt_upper_bound]. }
  eexists; split; [done|]. unfold is_int16. destruct s; lia.
Qed.

Lemma pow2_neg_exp_ge e k : 0 ≤ k → e ≤ - k → 2 ^ k ≤ 2 ^ (- e).
Proof. intros Hk He. apply Z.pow_le_mono_r; lia. Qed.

(** Comparison of finite values of one sign, on exponent and mantissa. *)
Lemma SFltb_positive m1 e1 m2 e2 :
  SFltb (S754_finite false m1 e1) (S754_finite false m2 e2)
  = (e1 <? e2) || ((e1 =? e2) && (Z.pos m1 <? Z.pos m2)).
Proof.
  unfold SFltb, SFcompare.
  destruct (Z.compare_spec e1 e2) as [->|He|He].
  - rewrite Z.ltb_irrefl, Z.eqb_refl. cbn [orb andb]. unfold Z.ltb.
    change (Z.pos m1 ?= Z.pos m2) with (Pos.compare_cont Eq m1 m2).
    by destruct (Pos.compare_cont Eq m1 m2).
  - by rewrite (proj2 (Z.ltb_lt _ _)) by done.
  - rewrite (proj2 (Z.ltb_ge _ _)), (proj2 (Z.eqb_neq _ _)) by lia. done.
Qed.

Lemma SFltb_negative m1 e1 m2 e2 :
  SFltb (S754_finite true m1 e1) (S754_finite true m2 e2)
  = (e2 <? e1) || ((e1 =? e2) && (Z.pos m2 <? Z.pos m1)).
Proof.
  unfold SFltb, SFcompare.
  destruct (Z.compare_spec e1 e2) as [->|He|He].
  - rewrite Z.ltb_irrefl, Z.eqb_refl. cbn [orb andb]. unfold Z.ltb.
    change (Z.pos m2 ?= Z.pos m1) with (Pos.compare m2 m1).
    rewrite (Pos.compare_antisym m1 m2).
    change (Pos.compare_cont Eq m1 m2) with (Pos.compare m1 m2).
    by destruct (m1 ?= m2)%positive.
  - rewrite (proj2 (Z.ltb_ge _ _)), (proj2 (Z.eqb_neq _ _)) by lia. done.
  - by rewrite (proj2 (Z.ltb_lt _ _)) by done.
Qed.

Lemma SFeqb_finite s m e : SFeqb (S754_finite s m e) (S754_finite s m e) = true.
Proof.
  unfold SFeqb, SFcompare. rewrite Z.compare_refl, Pos.compare_cont_refl. by destruct s.
Qed.

(** Settle every integer comparison of the goal from the context. *)
Ltac decide_comparisons :=
  repeat first
    [ rewrite (proj2 (Z.ltb_lt _ _)) by lia
    | rewrite (proj2 (Z.ltb_ge _ _)) by lia
    | rewrite (proj2 (Z.eqb_eq _ _)) by lia
    | rewrite (proj2 (Z.eqb_neq _ _)) by lia
    | progress cbn [orb andb] ].

(** The store after the clip never wraps: what lands in the array is
    the integer part of the value hard-clipped to [-32768, 32767]. *)
Lemma store_clip v :
  ToInt16 (clip v) = clip_and_truncate v ∧ is_int16 (ToInt16 (clip v)).
Proof.
  assert (∀ x n, truncate x = Some n → is_int16 n →
                 ToInt16 x = default 0 (truncate x) ∧ is_int16 (ToInt16 x)) as Hleaf.
  { intros x n Hx Hn. rewrite (ToInt16_in_range x n), Hx by done. done. }
  assert (∀ x c n, ToInt16 c = n → truncate x = Some n → is_int16 n →
                   ToInt16 c = default 0 (truncate x) ∧ is_int16 (ToInt16 c)) as Htie.
  { intros x c n -> -> Hn. done. }
  assert (is_int16 32767 ∧ is_int16 (-32768)) as [Hhi Hlo] by (unfold is_int16; lia).
  assert (ToInt16 32767 = 32767 ∧ ToInt16 (-32768) = -32768) as [Thi Tlo]
    by (by vm_compute).
  assert (truncate 32767 = Some 32767 ∧ truncate (-32768) = Some (-32768)) as [Uhi Ulo]
    by (by vm_compute).
  rewrite clip_cases. unfold clip_and_truncate, hard_clip, is_nan.
  rewrite !FloatAxioms.ltb_spec, FloatAxioms.eqb_spec, SF_32767, SF_minus_32768.
  destruct (Prim2SF v) as [s|s| |s m e] eqn:Hv.
  - (* a zero *)
    destruct s; cbn [SFeqb SFltb SFcompare negb];
      (apply (Hleaf v 0); [by unfold truncate; rewrite Hv | unfold is_int16; lia]).
  - (* an infinity *)
    destruct s; cbn [SFeqb SFltb SFcompare negb]; eauto.
  - (* NaN *)
    cbn [SFeqb SFltb SFcompare negb]. unfold truncate. rewrite Hv. by vm_compute.
  - pose proof (mantissa_bound v s m e Hv) as Hm.
    rewrite SFeqb_finite. cbn [negb]. destruct s.
    + (* negative: against -32768 = -(2^52) * 2^-37 *)
      rewrite !SFltb_negative.
      change (SFltb (S754_finite true m e) (S754_finite false _ _)) with true.
      change (SFltb (S754_finite false _ _) (S754_finite true m e)) with false.
      cbv iota.
      destruct (Z.lt_trichotomy e (-37)) as [He|[->|He]].
      * decide_comparisons.
        destruct (truncate_small v true m e Hv) as (n & Hn & Hr); [lia| |by apply (Hleaf v n)].
        pose proof (pow2_neg_exp_ge e 38). lia.
      * destruct (Z.lt_trichotomy (Z.pos m) 4503599627370496) as [Hc|[Hc|Hc]].
        -- decide_comparisons.
           destruct (truncate_small v true m (-37) Hv) as (n & Hn & Hr); [lia|lia|].
           by apply (Hleaf v n).
        -- decide_comparisons. injection Hc as ->.
           apply (Htie v _ (-32768)); [done| by unfold truncate; rewrite Hv | done].
        -- decide_comparisons. eauto.
      * decide_comparisons. eauto.
    + (* positive: against 32767 = (32767 * 2^38) * 2^-38 *)
      rewrite !SFltb_positive.
      change (SFltb (S754_finite true _ _) (S754_finite false m e)) with true.
      change (SFltb (S754_finite false m e) (S754_finite true _ _)) with false.
      cbv iota.
      destruct (Z.lt_trichotomy e (-38)) as [He|[->|He]].
      * decide_comparisons.
        destruct (truncate_small v false m e Hv) as (n & Hn & Hr); [lia| |by apply (Hleaf v n)].
        pose proof (pow2_neg_exp_ge e 39). lia.
      * destruct (Z.lt_trichotomy (Z.pos m) 9006924376834048) as [Hc|[Hc|Hc]].
        -- decide_comparisons.
           destruct (truncate_small v false m (-38) Hv) as (n & Hn & Hr); [lia|lia|].
           by apply (Hleaf v n).
        -- decide_comparisons. injection Hc as ->.
           apply (Htie v _ 32767); [done| by unfold truncate; rewrite Hv | done].
        -- decide_comparisons. eauto.
      * decide_comparisons. eauto.
Qed.

End JsNumberFacts.

(** ** [AudioFilter] *)

Module AudioFilterFacts.
Import JsNumber AudioFilter JsNumberFacts.

(** One round of the loop is one step of the cascade. *)
Lemma loop_body_filter_sample s x :
  loop_body (fields_of s) x = let '(s', y) := filter_sample s x in (fields_of s', y).
Proof.
  unfold loop_body, filter_sample, fields_of. cbn.
  fold (clip (((st_lowpassAlpha s
     * (st_highpassAlpha s * (prevOutputHP s + of_int16 x - of_int16 (prevInputHP s)))
     + (1 - st_lowpassAlpha s) * prevOutputLP s) * 8)%float)).
  by rewrite (proj1 (store_clip _)).
Qed.

(** The loop from index [length done] on, with [rest] still to do. *)
Lemma filter_loop_filter_all rest : ∀ done s,
  filter_loop (length rest) (length done) (fields_of s) (done ++ rest) =
    let '(s', out) := filter_all s rest in (fields_of s', done ++ out).
Proof.
  induction rest as [|x rest IH]; intros done s; cbn [length filter_loop filter_all].
  - done.
  - rewrite list_lookup_middle by done.
    rewrite loop_body_filter_sample.
    destruct (filter_sample s x) as [s' y].
    rewrite insert_at_length.
    specialize (IH (done ++ [y]) s'). rewrite length_app, Nat.add_1_r in IH.
    rewrite <- (assoc_L (++) done) in IH. cbn [app] in IH. rewrite IH.
    destruct (filter_all s' rest) as [s'' ys]. by rewrite <- (assoc_L (++) done).
Qed.

Lemma processAudioInPlace_filter_all s buffer :
  processAudioInPlace (fields_of s) buffer =
    let '(s', out) := filter_all s buffer in (fields_of s', out).
Proof. apply (filter_loop_filter_all buffer []). Qed.

Lemma filter_all_app s xs ys :
  filter_all s (xs ++ ys) =
    let '(s1, out1) := filter_all s xs in
    let '(s2, out2) := filter_all s1 ys in
    (s2, out1 ++ out2).
Proof.
  revert s; induction xs as [|x xs IH]; intros s; cbn [app filter_all].
  - by destruct (filter_all s ys).
  - destruct (filter_sample s x) as [s' y]. rewrite IH.
    destruct (filter_all s' xs) as [s1 out1]. by destruct (filter_all s1 ys).
Qed.

Lemma filter_all_shape s xs :
  length (filter_all s xs).2 = length xs
  ∧ Forall is_int16 (filter_all s xs).2
  ∧ st_highpassAlpha (filter_all s xs).1 = st_highpassAlpha s
  ∧ st_lowpassAlpha (filter_all s xs).1 = st_lowpassAlpha s.
Proof.
  revert s; induction xs as [|x xs IH]; intros s; cbn [filter_all].
  - by repeat split.
  - destruct (filter_sample s x) as [s' y] eqn:Es.
    destruct (IH s') as (Hlen & Hall & Hhp & Hlp).
    destruct (filter_all s' xs) as [s'' ys]. cbn [fst snd] in *.
    unfold filter_sample in Es. injection Es as <- <-. cbn in *.
    split_and!; [by rewrite Hlen| |done|done].
    constructor; [|done].
    match goal with |- context [clip_and_truncate ?v] => pose proof (store_clip v) as [<- Hr] end.
    done.
Qed.

(** C2: [processAudioInPlace] is the described cascade.  The
    constructor sets [highpassAlpha = 1 / (1 + tan(pi * 300 / Fs))] and
    [lowpassAlpha = tan(pi * 3500 / Fs) / (1 + tan(pi * 3500 / Fs))] with
    a zero history.  A call runs, sample by sample in buffer order, the
    high-pass difference step, the low-pass step, the gain of 8 and the
    hard clip to [-32768, 32767] with truncation ([filter_sample]),
    writing each result at the position it was read from; the alphas
    never change, every stored value is an int16, and the history is
    carried over, so that two successive calls do what one call on the
    two buffers joined does. *)
Theorem processAudioInPlace_is_the_filter_cascade
    (Math_tan : float → float) (sampleRate : float)
    (s : FilterState) (buffer next : list Z) :
  new_AudioFilter Math_tan sampleRate = fields_of (initial_state Math_tan sampleRate)
  ∧ processAudioInPlace (fields_of s) buffer =
      (let '(s', out) := filter_all s buffer in (fields_of s', out))
  ∧ length (processAudioInPlace (fields_of s) buffer).2 = length buffer
  ∧ Forall is_int16 (processAudioInPlace (fields_of s) buffer).2
  ∧ highpassAlpha (processAudioInPlace (fields_of s) buffer).1 = st_highpassAlpha s
  ∧ lowpassAlpha (processAudioInPlace (fields_of s) buffer).1 = st_lowpassAlpha s
  ∧ (let '(this1, out1) := processAudioInPlace (fields_of s) buffer in
     let '(this2, out2) := processAudioInPlace this1 next in
     processAudioInPlace (fields_of s) (buffer ++ next) = (this2, out1 ++ out2)).
Proof.
  pose proof (filter_all_shape s buffer) as (Hlen & Hall & Hhp & Hlp).
  rewrite !processAudioInPlace_filter_all, filter_all_app.
  destruct (filter_all s buffer) as [s1 out1]. cbn [fst snd] in *.
  split_and!; try done.
  rewrite processAudioInPlace_filter_all.
  by destruct (filter_all s1 next) as [s2 out2].
Qed.

End AudioFilterFacts.

(** ** [boostTtsVolumeInPlace] *)

Module VolumeShaperFacts.
Import JsNumber VolumeShaper JsNumberFacts.

Lemma all_from_spec p n : ∀ z k,
  all_from n z p = true → (z ≤ k < z + Z.of_nat n)%Z → p k = true.
Proof.
  induction n as [|n IH]; intros z k Hall Hk; [lia|].
  cbn [all_from] in Hall. apply andb_prop in Hall as [Hz Hrest].
  destruct (decide (k = z)) as [->|Hne]; [done|].
  apply (IH (z + 1)%Z); [done|lia].
Qed.

Lemma boost_body_clip_and_truncate safeFactor sample :
  boost_body safeFactor sample = clip_and_truncate (of_int16 sample * safeFactor)
  ∧ is_int16 (boost_body safeFactor sample).
Proof. unfold boost_body. apply store_clip. Qed.

(** With a factor of zero every int16 sample is stored as 0: checked on
    each of the 65536 values. *)
Lemma boost_body_zero sample : is_int16 sample → boost_body 0 sample = 0%Z.
Proof.
  intros Hs. apply Z.eqb_eq.
  apply (all_from_spec (λ z, (boost_body 0 z =? 0)%Z) (Z.to_nat 65536) (-32768)%Z).
  - by vm_compute.
  - unfold is_int16 in Hs. lia.
Qed.

Lemma boost_loop_map safeFactor rest : ∀ done,
  boost_loop (length rest) (length done) safeFactor (done ++ rest)
  = done ++ (boost_body safeFactor <$> rest).
Proof.
  induction rest as [|x rest IH]; intros done; cbn [length boost_loop fmap list_fmap].
  - done.
  - rewrite list_lookup_middle by done. rewrite insert_at_length.
    specialize (IH (done ++ [boost_body safeFactor x])).
    rewrite length_app, Nat.add_1_r, <- !(assoc_L (++) done) in IH. apply IH.
Qed.

Lemma boostTtsVolumeInPlace_map samples factor :
  boostTtsVolumeInPlace samples factor
  = boost_body (Math_max 0 (default 2%float factor)) <$> samples.
Proof. apply (boost_loop_map _ samples []). Qed.

Example boost_default_factor :
  boostTtsVolumeInPlace [20000; -20000; 100; 0; 3]%Z None = [32767; -32768; 200; 0; 6]%Z.
Proof. by vm_compute. Qed.

Example boost_fraction_truncates :
  boostTtsVolumeInPlace [7; -7]%Z (Some 0.5%float) = [3; -3]%Z.
Proof. by vm_compute. Qed.

(** C8: [boostTtsVolumeInPlace] clamps the factor to [max(0, factor)]
    and writes back, for each sample, the integer part of
    [sample * clampedFactor] clipped to [-32768, 32767], which is an
    int16.  A sample of 20000 with factor 2.0 becomes 32767; factor -1
    gives the same buffer as factor 0, and on int16 samples that buffer
    is all zeros. *)
Theorem boostTtsVolumeInPlace_clamps_and_clips (samples : list Z) (factor : float) :
  boostTtsVolumeInPlace samples (Some factor) = boostInPlace samples factor
  ∧ Forall is_int16 (boostTtsVolumeInPlace samples (Some factor))
  ∧ boostTtsVolumeInPlace [20000%Z] (Some 2%float) = [32767%Z]
  ∧ boostTtsVolumeInPlace samples (Some (-1)%float)
    = boostTtsVolumeInPlace samples (Some 0%float)
  ∧ (Forall is_int16 samples →
     boostTtsVolumeInPlace samples (Some (-1)%float) = replicate (length samples) 0%Z).
Proof.
  rewrite !boostTtsVolumeInPlace_map. cbn [default].
  change (Math_max 0 (-1)) with 0%float. change (Math_max 0 0) with 0%float.
  split_and!.
  - unfold boostInPlace. apply list_fmap_ext. intros _ sample _.
    apply boost_body_clip_and_truncate.
  - apply Forall_fmap, Forall_forall. intros sample _.
    apply boost_body_clip_and_truncate.
  - by vm_compute.
  - done.
  - induction 1 as [|sample samples Hs _ IH]; [done|].
    cbn [fmap list_fmap length replicate]. cbn [fmap] in IH.
    by rewrite boost_body_zero, IH.
Qed.

(** C8 on a buffer of four samples, silenced by a negative factor. *)
Lemma boostTtsVolumeInPlace_witness :
  boostTtsVolumeInPlace [20000; -7; 0; -32768]%Z (Some (-1)%float)
  = replicate 4 0%Z.
Proof.
  apply (boostTtsVolumeInPlace_clamps_and_clips [20000; -7; 0; -32768]%Z 2%float).
  repeat constructor; unfold is_int16; lia.
Defined.

End VolumeShaperFacts.

(** ** The upgrade handler *)

Module ConnectionGateFacts.
Import JsString ConnectionGate.

Local Open Scope string_scope.

Lemma skip_length_app (a b : string) : skip (String.length a) (a ++ b) = b.
Proof. induction a as [|c a IH]; [done | apply IH]. Qed.

Lemma startsWith_app (a b : string) : startsWith (a ++ b) a = true.
Proof.
  induction a as [|c a IH]; [done|].
  simpl. by rewrite Ascii.eqb_refl.
Qed.

(** On a header that begins with the pattern, [replace] strips it. *)
Lemma replace_unfold (s pat rep : string) :
  replace s pat rep =
    if startsWith s pat then rep ++ skip (String.length pat) s
    else match s with
         | EmptyString => EmptyString
         | String c s' => String c (replace s' pat rep)
         end.
Proof. by destruct s. Qed.

Lemma replace_prefix (pat rest : string) : replace (pat ++ rest) pat "" = rest.
Proof. rewrite replace_unfold, startsWith_app. apply skip_length_app. Qed.

Section WithCollaborators.

Context {URL SupabaseClient User WebSocket : Type}.
Variable new_URL : string → string → Thrown + URL.
Variable searchParams_get : URL → string → option string.
Variable Deno_env_get : string → option string.
Variable createClient : option string → option string → ClientOptions → Thrown + SupabaseClient.
Variable authenticateUser : SupabaseClient → string → Thrown + User.
Variable user_email : User → Thrown + option string.
Variable handleUpgrade : Request → UpgradeOutcome (WebSocket := WebSocket).
Variable ws_socket : Request → list SocketOp.
Variable now : string.
Variable listeners :
  WebSocket → Context (SupabaseClient := SupabaseClient) (User := User) → Thrown + unit.

Local Abbreviation token_of := (ConnectionGate.token_of searchParams_get).
Local Abbreviation getSupabaseClient := (ConnectionGate.getSupabaseClient Deno_env_get createClient).
Local Abbreviation ws_effects :=
  (ConnectionGate.ws_effects (SupabaseClient := SupabaseClient) (User := User)
     (WebSocket := WebSocket) ws_socket).
Local Abbreviation upgrade_try :=
  (ConnectionGate.upgrade_try new_URL searchParams_get Deno_env_get createClient
     authenticateUser user_email handleUpgrade ws_socket now listeners).
Local Abbreviation on_upgrade :=
  (ConnectionGate.on_upgrade new_URL searchParams_get Deno_env_get createClient
     authenticateUser user_email handleUpgrade ws_socket now listeners).

(** The URL the handler builds from the request. *)
Local Abbreviation parsed req :=
  (new_URL (default "/" (or_else (req_url req) None)) ("ws://" ++ interpolate (headers_host req))).

Local Abbreviation Trace :=
  (list (Effect (SupabaseClient := SupabaseClient) (User := User) (WebSocket := WebSocket))).

Lemma wire_app (es1 es2 : Trace) : wire (es1 ++ es2) = (wire es1 ++ wire es2)%list.
Proof. apply omap_app. Qed.

Lemma connections_app (es1 es2 : Trace) :
  connections (es1 ++ es2) = (connections es1 ++ connections es2)%list.
Proof. apply omap_app. Qed.

Lemma destroyed_app (es1 es2 : Trace) :
  destroyed (es1 ++ es2) = destroyed es1 || destroyed es2.
Proof. apply existsb_app. Qed.

(** The ws library writes to the socket; it hands nothing to the
    orchestrator by itself. *)
Lemma connections_ws_effects req : connections (ws_effects req) = [].
Proof.
  unfold ConnectionGate.ws_effects. induction (ws_socket req) as [|[data|] ops IH]; done.
Qed.

(** What the [catch] adds to a [try] that threw: the bare 401 and
    the end of the socket, after whatever happened before the throw. *)
Lemma thrown_gives_401 req es err :
  upgrade_try req = (es, inl err) →
  wire (on_upgrade req).1 = (wire es ++ [unauthorized_response])%list
  ∧ destroyed (on_upgrade req).1 = true
  ∧ connections (on_upgrade req).1 = connections es.
Proof.
  intros Htry. unfold ConnectionGate.on_upgrade, try_catch. rewrite Htry.
  unfold upgrade_catch.
  destruct err as [message|]; [destruct (includes message _)|];
    cbn; unfold wire, connections, destroyed; rewrite !omap_app, existsb_app; cbn;
    by rewrite ?orb_true_r, ?(right_id_L [] (++)).
Qed.

(** A [try] that returned: the handler adds nothing. *)
Lemma returned_adds_nothing req es :
  upgrade_try req = (es, inr tt) →
  wire (on_upgrade req).1 = wire es
  ∧ destroyed (on_upgrade req).1 = destroyed es
  ∧ connections (on_upgrade req).1 = connections es.
Proof.
  intros Htry. unfold ConnectionGate.on_upgrade, try_catch. by rewrite Htry.
Qed.

Lemma call_bind {A B} (a : A) (k : A → M B) :
  (call (inr a) ≫= k) = k a :> M (SupabaseClient := SupabaseClient) (User := User)
                                  (WebSocket := WebSocket) B.
Proof. unfold mbind, M_bind, call. by destruct (k a). Qed.

Lemma effects_bind {B} (es : Trace) (m : M B) :
  ((es, inr tt) ≫= λ _ : unit, m) = ((es ++ m.1)%list, m.2).
Proof. unfold mbind, M_bind. by destruct m. Qed.

(** A URL the parser rejects is one of the failures: bare 401. *)
Lemma rejected_url_gets_bare_401 req err :
  parsed req = inl err →
  wire (on_upgrade req).1 = [unauthorized_response]
  ∧ destroyed (on_upgrade req).1 = true
  ∧ connections (on_upgrade req).1 = [].
Proof.
  intros Hurl. apply (thrown_gives_401 req [] err).
  unfold ConnectionGate.upgrade_try. by rewrite Hurl.
Qed.

(** The [try] once a URL is parsed, by what the token turns out to be. *)
Lemma upgrade_try_no_token req url :
  parsed req = inr url → token_of url req = "" →
  upgrade_try req =
    ([ConsoleLog "Upgrade failed: No token provided.";
      SocketWrite challenge_response; SocketDestroy], inr tt).
Proof.
  intros Hurl Htok. unfold ConnectionGate.upgrade_try.
  rewrite Hurl, call_bind. cbv zeta. rewrite Htok. by rewrite decide_True.
Qed.

Lemma upgrade_try_token req url :
  parsed req = inr url → token_of url req ≠ "" →
  upgrade_try req =
    (supabase ← call (getSupabaseClient (token_of url req));
     user ← call (authenticateUser supabase (token_of url req));
     email ← call (user_email user);
     effect (ConsoleLog ("User authenticated via token: " ++ interpolate email));;
     (ws_effects req, inr tt);;
     match handleUpgrade req with
     | Upgraded ws =>
         effect (ConsoleLog "WebSocket upgrade successful, emitting connection event.");;
         emit_connection listeners ws
           {| user := user; supabase := supabase; timestamp := now |}
     | NotUpgraded => mret tt
     | UpgradeThrown e => call (inl e)
     end).
Proof.
  intros Hurl Htok. unfold ConnectionGate.upgrade_try.
  rewrite Hurl, call_bind. cbv zeta. by rewrite decide_False.
Qed.

(** The [try] from the call of [handleUpgrade] on: the socket traffic
    of the ws library, then the event if the handshake was completed,
    and the result of the listeners if the event was delivered. *)
Lemma upgrade_try_handshake req url supabase user email :
  parsed req = inr url → token_of url req ≠ "" →
  getSupabaseClient (token_of url req) = inr supabase →
  authenticateUser supabase (token_of url req) = inr user →
  user_email user = inr email →
  upgrade_try req =
    match handleUpgrade req with
    | Upgraded ws =>
        ((ConsoleLog ("User authenticated via token: " ++ interpolate email)
            :: ws_effects req
            ++ [ConsoleLog "WebSocket upgrade successful, emitting connection event.";
                EmitConnection ws {| user := user; supabase := supabase; timestamp := now |}])%list,
         listeners ws {| user := user; supabase := supabase; timestamp := now |})
    | NotUpgraded =>
        (ConsoleLog ("User authenticated via token: " ++ interpolate email) :: ws_effects req,
         inr tt)
    | UpgradeThrown e =>
        (ConsoleLog ("User authenticated via token: " ++ interpolate email) :: ws_effects req,
         inl e)
    end.
Proof.
  intros Hurl Htok Hclient Hauth Hemail.
  rewrite (upgrade_try_token req url Hurl Htok).
  rewrite Hclient, call_bind, Hauth, call_bind, Hemail, call_bind.
  unfold effect, emit_connection. rewrite !effects_bind.
  destruct (handleUpgrade req) as [ws| |e]; cbn [fst snd mret M_ret call app].
  - unfold effect, call, mbind, M_bind. cbn [fst snd app].
    by rewrite ?(right_id_L [] (++)).
  - by rewrite (right_id_L [] (++)).
  - by rewrite (right_id_L [] (++)).
Qed.

(** An exception before [handleUpgrade] is called: nothing has reached
    the socket or the orchestrator. *)
Lemma upgrade_try_early_throw req url err :
  parsed req = inr url → token_of url req ≠ "" →
  (getSupabaseClient (token_of url req) = inl err
   ∨ (∃ supabase, getSupabaseClient (token_of url req) = inr supabase
        ∧ authenticateUser supabase (token_of url req) = inl err)
   ∨ (∃ supabase user, getSupabaseClient (token_of url req) = inr supabase
        ∧ authenticateUser supabase (token_of url req) = inr user
        ∧ user_email user = inl err)) →
  upgrade_try req = ([], inl err).
Proof.
  intros Hurl Htok Hfail. rewrite (upgrade_try_token req url Hurl Htok).
  destruct Hfail as [Hc | [(supabase & Hc & Ha) | (supabase & user & Hc & Ha & He)]];
    by rewrite Hc, ?call_bind, ?Ha, ?call_bind, ?He.
Qed.

(** The events of the [try]: none, or the one of a completed
    handshake after a successful authentication. *)
Lemma connections_of_the_try req :
  connections (upgrade_try req).1 = []
  ∨ ∃ url supabase user email ws,
      parsed req = inr url ∧ token_of url req ≠ ""
      ∧ getSupabaseClient (token_of url req) = inr supabase
      ∧ authenticateUser supabase (token_of url req) = inr user
      ∧ user_email user = inr email
      ∧ handleUpgrade req = Upgraded ws
      ∧ connections (upgrade_try req).1
        = [(ws, {| user := user; supabase := supabase; timestamp := now |})].
Proof.
  destruct (parsed req) as [e|url] eqn:Hurl.
  { left. unfold ConnectionGate.upgrade_try. by rewrite Hurl. }
  destruct (decide (token_of url req = "")) as [Htok|Htok].
  { left. by rewrite (upgrade_try_no_token req url). }
  destruct (getSupabaseClient (token_of url req)) as [e|supabase] eqn:Hclient.
  { left. rewrite (upgrade_try_early_throw req url e); [done..|by left]. }
  destruct (authenticateUser supabase (token_of url req)) as [e|user] eqn:Hauth.
  { left. rewrite (upgrade_try_early_throw req url e); [done..|]. right; left. eauto. }
  destruct (user_email user) as [e|email] eqn:Hemail.
  { left. rewrite (upgrade_try_early_throw req url e); [done..|]. right; right. eauto. }
  rewrite (upgrade_try_handshake req url supabase user email) by done.
  destruct (handleUpgrade req) as [ws| |e] eqn:Hup; cbn [fst].
  - right. exists url, supabase, user, email, ws. split_and!; try done.
    change (ConsoleLog ?m :: ?l) with ([ConsoleLog m] ++ l)%list.
    by rewrite !connections_app, connections_ws_effects.
  - left. apply (connections_ws_effects req).
  - left. apply (connections_ws_effects req).
Qed.

(** The handler hands over what its [try] did, whether that returned
    or threw. *)
Lemma connections_on_upgrade req :
  connections (on_upgrade req).1 = connections (upgrade_try req).1.
Proof.
  destruct (upgrade_try req) as [es [err|[]]] eqn:Htry; cbn [fst].
  - by apply (thrown_gives_401 req es err).
  - by apply (returned_adds_nothing req es).
Qed.

(** What the socket and the orchestrator see of the two traces that
    pass through [handleUpgrade]. *)
Lemma completed_handshake_views req msg msg' ws ctx :
  wire (ConsoleLog msg :: ws_effects req ++ [ConsoleLog msg'; EmitConnection ws ctx])%list
    = wire (ws_effects req)
  ∧ destroyed (ConsoleLog msg :: ws_effects req ++ [ConsoleLog msg'; EmitConnection ws ctx])%list
    = destroyed (ws_effects req)
  ∧ connections (ConsoleLog msg :: ws_effects req ++ [ConsoleLog msg'; EmitConnection ws ctx])%list
    = [(ws, ctx)].
Proof.
  change (ConsoleLog msg :: ?l) with ([ConsoleLog msg] ++ l)%list.
  rewrite !wire_app, !destroyed_app, !connections_app, connections_ws_effects.
  cbn. by rewrite (right_id_L [] (++)), orb_false_r.
Qed.

Lemma other_handshake_views req msg :
  wire (ConsoleLog msg :: ws_effects req) = wire (ws_effects req)
  ∧ destroyed (ConsoleLog msg :: ws_effects req) = destroyed (ws_effects req)
  ∧ connections (ConsoleLog msg :: ws_effects req) = [].
Proof. split_and!; [done..|]. apply (connections_ws_effects req). Qed.

(** C3, amended.  A request whose URL parses, whose token is not
    empty, for which the scoped client is built, [authenticateUser]
    resolves to a user whose [email] can be read, and whose handshake
    [handleUpgrade] completes, gives the orchestrator exactly one
    connection event, whatever the listeners then do.  Its context is
    built in the callback: the authenticated user, the client created
    for ["Bearer " ++ token] (the context has no credential of its
    own), and the timestamp read then.  If the listeners return, the
    handler itself writes nothing to the socket and does not destroy
    it: the socket has seen the traffic of the ws library only. *)
Theorem valid_token_is_admitted_when_the_handshake_completes
    req url token supabase user email ws :
  parsed req = inr url →
  token_of url req = token → token ≠ "" →
  getSupabaseClient token = inr supabase →
  authenticateUser supabase token = inr user →
  user_email user = inr email →
  handleUpgrade req = Upgraded ws →
  connections (on_upgrade req).1
    = [(ws, {| user := user; supabase := supabase; timestamp := now |})]
  ∧ createClient (Deno_env_get "SUPABASE_URL") (Deno_env_get "SUPABASE_KEY")
      {| global_headers_Authorization := "Bearer " ++ token |} = inr supabase
  ∧ (listeners ws {| user := user; supabase := supabase; timestamp := now |} = inr tt →
     wire (on_upgrade req).1 = wire (ws_effects req)
     ∧ destroyed (on_upgrade req).1 = destroyed (ws_effects req)).
Proof.
  intros Hurl <- Htok Hclient Hauth Hemail Hup.
  pose proof (upgrade_try_handshake req url supabase user email
                Hurl Htok Hclient Hauth Hemail) as Htry.
  rewrite Hup in Htry.
  destruct (completed_handshake_views req
              ("User authenticated via token: " ++ interpolate email)
              "WebSocket upgrade successful, emitting connection event."
              ws {| user := user; supabase := supabase; timestamp := now |})
    as (Hwire & Hdestroyed & Hconnections).
  split_and!.
  - rewrite connections_on_upgrade, Htry. exact Hconnections.
  - exact Hclient.
  - intros Hreturn. rewrite Hreturn in Htry.
    destruct (returned_adds_nothing req _ Htry) as (-> & -> & _). by split.
Qed.

(** C6, amended.  When the URL parses, the credential is the [token]
    query parameter if that is present and not empty; otherwise it is
    the authorization header with the first occurrence of ["Bearer "]
    removed, which strips the prefix of a header that begins with it,
    and the empty string if there is no header.  Whenever the
    credential so obtained is empty, the response is the 401 with the
    [WWW-Authenticate] challenge, the socket is destroyed and no
    connection event fires. *)
Theorem credential_extraction_and_challenge req url :
  parsed req = inr url →
  (∀ t, searchParams_get url "token" = Some t → t ≠ "" → token_of url req = t)
  ∧ (searchParams_get url "token" = None ∨ searchParams_get url "token" = Some "" →
     token_of url req
       = default "" ((λ a, replace a "Bearer " "") <$> headers_authorization req)
     ∧ ∀ rest, headers_authorization req = Some ("Bearer " ++ rest) →
               token_of url req = rest)
  ∧ (token_of url req = "" →
     wire (on_upgrade req).1 = [challenge_response]
     ∧ destroyed (on_upgrade req).1 = true
     ∧ connections (on_upgrade req).1 = []).
Proof.
  intros Hurl. split_and!.
  - intros t Ht Hne. unfold ConnectionGate.token_of. rewrite Ht.
    by destruct t.
  - intros Hq.
    assert (token_of url req
            = default "" ((λ a, replace a "Bearer " "") <$> headers_authorization req)) as Heq.
    { unfold ConnectionGate.token_of.
      destruct Hq as [-> | ->]; cbn [or_else];
        destruct (headers_authorization req) as [a|]; cbn; [|done| |done];
        by destruct (replace a _ _). }
    split; [done|]. intros rest Hh. rewrite Heq, Hh. cbn [fmap option_fmap option_map default].
    apply (replace_prefix "Bearer " rest).
  - intros Htok. unfold ConnectionGate.on_upgrade.
    by rewrite (upgrade_try_no_token req url).
Qed.

(** C7, amended.  Once a non-empty credential is presented, an
    exception thrown before the connection event is emitted has one
    outcome.  If the client cannot be built, [authenticateUser]
    rejects, or [user.email] cannot be read, the caller gets the bare
    401 and nothing else, on a socket that is then destroyed, and no
    connection reaches the orchestrator.  If [handleUpgrade] itself
    throws, the same 401 follows whatever the ws library had written,
    the socket is destroyed and no connection reaches the
    orchestrator. *)
Theorem every_exception_before_the_event_is_the_same_401 req url token err :
  parsed req = inr url →
  token_of url req = token → token ≠ "" →
  ((getSupabaseClient token = inl err
    ∨ (∃ supabase, getSupabaseClient token = inr supabase
         ∧ authenticateUser supabase token = inl err)
    ∨ (∃ supabase user, getSupabaseClient token = inr supabase
         ∧ authenticateUser supabase token = inr user
         ∧ user_email user = inl err)) →
   wire (on_upgrade req).1 = [unauthorized_response]
   ∧ destroyed (on_upgrade req).1 = true
   ∧ connections (on_upgrade req).1 = [])
  ∧ ((∃ supabase user email, getSupabaseClient token = inr supabase
         ∧ authenticateUser supabase token = inr user
         ∧ user_email user = inr email
         ∧ handleUpgrade req = UpgradeThrown err) →
     wire (on_upgrade req).1 = (wire (ws_effects req) ++ [unauthorized_response])%list
     ∧ destroyed (on_upgrade req).1 = true
     ∧ connections (on_upgrade req).1 = []).
Proof.
  intros Hurl <- Htok. split.
  - intros Hfail.
    apply (thrown_gives_401 req [] err), (upgrade_try_early_throw req url err Hurl Htok Hfail).
  - intros (supabase & user & email & Hclient & Hauth & Hemail & Hup).
    pose proof (upgrade_try_handshake req url supabase user email
                  Hurl Htok Hclient Hauth Hemail) as Htry.
    rewrite Hup in Htry.
    destruct (thrown_gives_401 req _ err Htry) as (-> & -> & ->).
    destruct (other_handshake_views req
                ("User authenticated via token: " ++ interpolate email)) as (-> & _ & ->).
    done.
Qed.

End WithCollaborators.

Example upgrade_with_bearer_header :
  (Demo.demo_on_upgrade (Demo.request "/" (Some "Bearer jwt-of-ada"))).1
  = [ConsoleLog "Incoming upgrade request from: 10.0.0.9";
     ConsoleLog "User authenticated via token: ada@example.org";
     SocketWrite Demo.switching_protocols;
     ConsoleLog "WebSocket upgrade successful, emitting connection event.";
     EmitConnection 7
       {| user := Some "ada@example.org";
          supabase := ("https://project.supabase.co", "anon-key",
                       {| global_headers_Authorization := "Bearer jwt-of-ada" |});
          timestamp := Demo.now |}].
Proof. reflexivity. Qed.

Example upgrade_without_token :
  (Demo.demo_on_upgrade (Demo.request "/" None)).1
  = [ConsoleLog "Incoming upgrade request from: 10.0.0.9";
     ConsoleLog "Upgrade failed: No token provided.";
     SocketWrite challenge_response; SocketDestroy].
Proof. reflexivity. Qed.

(** C3, amended, with the stand-in collaborators:
    [GET /?token=jwt-of-ada]. *)
Lemma valid_token_is_admitted_witness :
  connections (Demo.demo_on_upgrade (Demo.request "/?token=jwt-of-ada" None)).1
    = [(7, {| user := Some "ada@example.org";
              supabase := ("https://project.supabase.co", "anon-key",
                           {| global_headers_Authorization := "Bearer jwt-of-ada" |});
              timestamp := Demo.now |})]
  ∧ Demo.createClient (Demo.Deno_env_get "SUPABASE_URL") (Demo.Deno_env_get "SUPABASE_KEY")
      {| global_headers_Authorization := "Bearer " ++ "jwt-of-ada" |}
    = inr ("https://project.supabase.co", "anon-key",
           {| global_headers_Authorization := "Bearer jwt-of-ada" |})
  ∧ (Demo.listener_returns 7
       {| user := Some "ada@example.org";
          supabase := ("https://project.supabase.co", "anon-key",
                       {| global_headers_Authorization := "Bearer jwt-of-ada" |});
          timestamp := Demo.now |} = inr tt →
     wire (Demo.demo_on_upgrade (Demo.request "/?token=jwt-of-ada" None)).1
       = [Demo.switching_protocols]
     ∧ destroyed (Demo.demo_on_upgrade (Demo.request "/?token=jwt-of-ada" None)).1 = false).
Proof.
  apply (valid_token_is_admitted_when_the_handshake_completes
           Demo.new_URL Demo.searchParams_get Demo.Deno_env_get Demo.createClient
           Demo.authenticateUser Demo.user_email Demo.handleUpgrade Demo.ws_socket Demo.now
           Demo.listener_returns
           (Demo.request "/?token=jwt-of-ada" None)
           "ws://toy.example:8080/?token=jwt-of-ada" "jwt-of-ada" _ _ (Some "ada@example.org"));
    [reflexivity | reflexivity | discriminate | reflexivity | reflexivity | reflexivity
    | reflexivity].
Defined.

(** C3 as stated fails on two requests that present the token of a
    user and for which [authenticateUser] resolves.  One asks for a
    protocol the ws library does not speak: the library answers 400
    itself and never calls back.  The other carries a token for which
    the promise resolves to [undefined]: reading [user.email] throws
    and the request gets the bare 401.  Neither leads to a connection
    event. *)
Lemma authenticated_requests_without_admission :
  (Demo.authenticateUser
     ("https://project.supabase.co", "anon-key",
      {| global_headers_Authorization := "Bearer jwt-of-ada" |}) "jwt-of-ada"
   = inr (Some "ada@example.org")
   ∧ connections (Demo.demo_on_upgrade (Demo.request_h2c "/?token=jwt-of-ada" None)).1 = []
   ∧ wire (Demo.demo_on_upgrade (Demo.request_h2c "/?token=jwt-of-ada" None)).1
     = [Demo.bad_request])
  ∧ (Demo.authenticateUser
       ("https://project.supabase.co", "anon-key",
        {| global_headers_Authorization := "Bearer jwt-of-nobody" |}) "jwt-of-nobody"
     = inr None
     ∧ connections (Demo.demo_on_upgrade (Demo.request "/?token=jwt-of-nobody" None)).1 = []
     ∧ wire (Demo.demo_on_upgrade (Demo.request "/?token=jwt-of-nobody" None)).1
       = [unauthorized_response]).
Proof. by vm_compute. Qed.

(** C6 as stated fails on two requests.  With no query token and the
    header [Basic Bearer abc], the handler's credential is [Basic abc]:
    the text ["Bearer "] is removed from the middle of the header,
    which has no such prefix to strip.  And a request whose URL the
    parser rejects, carrying no credential at all, is answered with the
    bare 401, without the challenge. *)
Lemma bearer_removed_inside_header_and_bad_url_unchallenged :
  (Demo.new_URL "/" "ws://toy.example:8080" = inr "ws://toy.example:8080/"
   ∧ token_of Demo.searchParams_get "ws://toy.example:8080/"
       (Demo.request "/" (Some "Basic Bearer abc")) = "Basic abc"
   ∧ described_credential Demo.searchParams_get "ws://toy.example:8080/"
       (Demo.request "/" (Some "Basic Bearer abc")) = "Basic Bearer abc")
  ∧ (Demo.new_URL "//" "ws://toy.example:8080" = inl (ErrorObject "Invalid URL")
     ∧ wire (Demo.demo_on_upgrade (Demo.request "//" None)).1 = [unauthorized_response]
     ∧ [unauthorized_response] ≠ [challenge_response]).
Proof. by vm_compute. Qed.

(** C6, amended, on [GET /?token=] without a header. *)
Lemma credential_extraction_witness :
  (∀ t, Demo.searchParams_get "ws://toy.example:8080/?token=" "token" = Some t → t ≠ "" →
        token_of Demo.searchParams_get "ws://toy.example:8080/?token="
          (Demo.request "/?token=" None) = t)
  ∧ (Demo.searchParams_get "ws://toy.example:8080/?token=" "token" = None
     ∨ Demo.searchParams_get "ws://toy.example:8080/?token=" "token" = Some "" →
     token_of Demo.searchParams_get "ws://toy.example:8080/?token="
       (Demo.request "/?token=" None)
       = default "" ((λ a, replace a "Bearer " "")
                       <$> headers_authorization (Demo.request "/?token=" None))
     ∧ ∀ rest, headers_authorization (Demo.request "/?token=" None)
                 = Some ("Bearer " ++ rest) →
               token_of Demo.searchParams_get "ws://toy.example:8080/?token="
                 (Demo.request "/?token=" None) = rest)
  ∧ (token_of Demo.searchParams_get "ws://toy.example:8080/?token="
       (Demo.request "/?token=" None) = "" →
     wire (Demo.demo_on_upgrade (Demo.request "/?token=" None)).1 = [challenge_response]
     ∧ destroyed (Demo.demo_on_upgrade (Demo.request "/?token=" None)).1 = true
     ∧ connections (Demo.demo_on_upgrade (Demo.request "/?token=" None)).1 = []).
Proof.
  apply (credential_extraction_and_challenge
           Demo.new_URL Demo.searchParams_get Demo.Deno_env_get Demo.createClient
           Demo.authenticateUser Demo.user_email Demo.handleUpgrade Demo.ws_socket Demo.now
           Demo.listener_returns
           (Demo.request "/?token=" None) "ws://toy.example:8080/?token=").
  reflexivity.
Defined.

(** C7 as stated fails on two requests that present the token of a
    user.  When a listener of the connection event throws, the bare
    401 is written and the socket destroyed after the connection was
    handed to the orchestrator (and after the 101 response).  When the
    ws library refuses the handshake, the request fails without any
    401: the library's own 400 is all the caller gets. *)
Lemma listener_exception_follows_admission_and_refusal_has_no_401 :
  (connections (Demo.demo_on_upgrade_listener_throws
                  (Demo.request "/?token=jwt-of-ada" None)).1
   = [(7, {| user := Some "ada@example.org";
             supabase := ("https://project.supabase.co", "anon-key",
                          {| global_headers_Authorization := "Bearer jwt-of-ada" |});
             timestamp := Demo.now |})]
   ∧ wire (Demo.demo_on_upgrade_listener_throws (Demo.request "/?token=jwt-of-ada" None)).1
     = [Demo.switching_protocols; unauthorized_response]
   ∧ destroyed (Demo.demo_on_upgrade_listener_throws
                  (Demo.request "/?token=jwt-of-ada" None)).1 = true)
  ∧ (connections (Demo.demo_on_upgrade (Demo.request_h2c "/?token=jwt-of-ada" None)).1 = []
     ∧ wire (Demo.demo_on_upgrade (Demo.request_h2c "/?token=jwt-of-ada" None)).1
       = [Demo.bad_request]
     ∧ Demo.bad_request ≠ unauthorized_response).
Proof. by vm_compute. Qed.

(** C7, amended, with the stand-in collaborators: a token the
    authentication rejects. *)
Lemma every_exception_before_the_event_witness :
  wire (Demo.demo_on_upgrade (Demo.request "/?token=stale" None)).1 = [unauthorized_response]
  ∧ destroyed (Demo.demo_on_upgrade (Demo.request "/?token=stale" None)).1 = true
  ∧ connections (Demo.demo_on_upgrade (Demo.request "/?token=stale" None)).1 = [].
Proof.
  destruct (every_exception_before_the_event_is_the_same_401
              Demo.new_URL Demo.searchParams_get Demo.Deno_env_get Demo.createClient
              Demo.authenticateUser Demo.user_email Demo.handleUpgrade Demo.ws_socket Demo.now
              Demo.listener_returns
              (Demo.request "/?token=stale" None)
              "ws://toy.example:8080/?token=stale" "stale"
              (ErrorObject "Authentication failed: invalid token"))
    as [Hearly _]; [reflexivity | reflexivity | discriminate |].
  apply Hearly. right; left. eexists. split; reflexivity.
Defined.

End ConnectionGateFacts.

(** ** The SIGINT handler *)

Module ShutdownFacts.
Import Shutdown.

Lemma callback_after_exit c ev code :
  exited c = Some code → callback c ev = (c, []).
Proof. unfold callback. by intros ->. Qed.

Lemma callbacks_after_exit evs : ∀ c code,
  exited c = Some code → callbacks c evs = (c, []).
Proof.
  induction evs as [|ev evs IH]; intros c code Hc; cbn [callbacks]; [done|].
  by rewrite (callback_after_exit c ev code), (IH c code).
Qed.

Lemma callbacks_app evs1 evs2 c :
  callbacks c (evs1 ++ evs2) =
    let '(c1, es1) := callbacks c evs1 in
    let '(c2, es2) := callbacks c1 evs2 in
    (c2, es1 ++ es2).
Proof.
  revert c; induction evs1 as [|ev evs1 IH]; intros c; cbn [callbacks app].
  - by destruct (callbacks c evs2).
  - destruct (callback c ev) as [c' es]. rewrite IH.
    destruct (callbacks c' evs1) as [c1 es1]. destruct (callbacks c1 evs2) as [c2 es2].
    by rewrite (assoc_L (++)).
Qed.

(** While fewer than [totalServers] callbacks have run and the timer
    has not fired, the process is alive and the counter is their
    number, whether or not a close reported an error. *)
Lemma callbacks_closes closes : ∀ n,
  Forall is_close closes →
  n + length closes < totalServers →
  ∃ es, callbacks {| serversClosed := n; exited := None |} closes
        = ({| serversClosed := n + length closes; exited := None |}, es)
        ∧ calls es = [].
Proof.
  induction closes as [|ev closes IH]; intros n Hall Hlt; cbn [callbacks length] in *.
  - exists []. by rewrite Nat.add_0_r.
  - apply Forall_cons in Hall as [Hev Hall].
    destruct (IH (S n) Hall) as (es & Hes & Hcalls); [lia|].
    unfold callback, checkExit. cbn [exited serversClosed].
    rewrite decide_False by lia.
    destruct ev as [err|err|]; [| |by destruct Hev]; rewrite Hes;
      replace (S n + length closes) with (n + S (length closes)) by lia;
      (eexists; split; [done|]); by destruct err.
Qed.

Lemma shutdown_app evs1 evs2 :
  shutdown (evs1 ++ evs2) =
    let '(c1, es1) := shutdown evs1 in
    let '(c2, es2) := callbacks c1 evs2 in
    (c2, es1 ++ es2).
Proof.
  unfold shutdown, on_SIGINT. rewrite callbacks_app.
  destruct (callbacks _ evs1) as [c1 es1]. destruct (callbacks c1 evs2) as [c2 es2].
  by rewrite (assoc_L (++)).
Qed.

Lemma shutdown_closes closes :
  Forall is_close closes →
  length closes < totalServers →
  ∃ es, shutdown closes
        = ({| serversClosed := length closes; exited := None |}, es)
        ∧ calls es = [ServerClose; WssClose; SetTimeout 5000].
Proof.
  intros Hall Hlt.
  destruct (callbacks_closes closes 0 Hall) as (es & Hes & Hcalls); [lia|].
  unfold shutdown, on_SIGINT. rewrite Hes. eexists; split; [done|].
  unfold calls in *. rewrite omap_app, Hcalls. done.
Qed.

(** C9: the listener starts both closes and arms a 5000 ms timer before
    any callback runs.  Each close callback counts, with or without an
    error.  While fewer than [totalServers] of them have run and the
    timer has not fired, the process is alive; the callback that brings
    the count to [totalServers] exits with status 0, and the timer
    firing before that exits with status 1; whichever comes first is
    the only exit, whatever is scheduled after it. *)
Theorem shutdown_exits_on_completion_or_timeout (closes rest : list Event) :
  Forall is_close closes →
  calls on_SIGINT.2 = [ServerClose; WssClose; SetTimeout 5000]
  ∧ (length closes < totalServers →
     exited (shutdown closes).1 = None
     ∧ serversClosed (shutdown closes).1 = length closes
     ∧ exited (shutdown (closes ++ TimerFired :: rest)).1 = Some 1%Z
     ∧ calls (shutdown (closes ++ TimerFired :: rest)).2
       = [ServerClose; WssClose; SetTimeout 5000; DenoExit 1])
  ∧ (length closes = totalServers →
     exited (shutdown (closes ++ rest)).1 = Some 0%Z
     ∧ calls (shutdown (closes ++ rest)).2
       = [ServerClose; WssClose; SetTimeout 5000; DenoExit 0]).
Proof.
  intros Hall. split_and!; [done| |].
  - intros Hlt. destruct (shutdown_closes closes Hall Hlt) as (es & Hes & Hcalls).
    rewrite shutdown_app, Hes. cbn [callbacks callback exited fst snd].
    rewrite (callbacks_after_exit rest _ 1%Z) by done. cbn [fst snd].
    split_and!; try done.
    unfold calls in *. rewrite omap_app, Hcalls. done.
  - intros Hlen. destruct closes as [|ev closes _] using rev_ind; [done|].
    rewrite length_app in Hlen. cbn in Hlen.
    apply Forall_app in Hall as [Hall Hev]. rewrite Forall_singleton in Hev.
    destruct (shutdown_closes closes Hall) as (es & Hes & Hcalls); [unfold totalServers in *; lia|].
    rewrite <- (assoc_L (++)), shutdown_app, Hes.
    cbn [app callbacks callback exited]. unfold checkExit. cbn [serversClosed exited].
    rewrite decide_True by (unfold totalServers in *; lia).
    unfold calls in *.
    destruct ev as [err|err|]; [| |by destruct Hev];
      rewrite (callbacks_after_exit rest _ 0%Z) by done; cbn [fst snd];
      (split; [done|]); rewrite !omap_app, Hcalls; by destruct err.
Qed.

(** C9 on a run where the HTTP close fails, the timer fires next and
    the WebSocket close reports back too late. *)
Lemma shutdown_witness :
  calls on_SIGINT.2 = [ServerClose; WssClose; SetTimeout 5000]
  ∧ (length [HttpClosed (Some "EADDRINUSE")] < totalServers →
     exited (shutdown [HttpClosed (Some "EADDRINUSE")]).1 = None
     ∧ serversClosed (shutdown [HttpClosed (Some "EADDRINUSE")]).1
       = length [HttpClosed (Some "EADDRINUSE")]
     ∧ exited (shutdown ([HttpClosed (Some "EADDRINUSE")] ++ TimerFired :: [WssClosed None])).1
       = Some 1%Z
     ∧ calls (shutdown ([HttpClosed (Some "EADDRINUSE")] ++ TimerFired :: [WssClosed None])).2
       = [ServerClose; WssClose; SetTimeout 5000; DenoExit 1])
  ∧ (length [HttpClosed (Some "EADDRINUSE")] = totalServers →
     exited (shutdown ([HttpClosed (Some "EADDRINUSE")] ++ [WssClosed None])).1 = Some 0%Z
     ∧ calls (shutdown ([HttpClosed (Some "EADDRINUSE")] ++ [WssClosed None])).2
       = [ServerClose; WssClose; SetTimeout 5000; DenoExit 0]).
Proof.
  apply (shutdown_exits_on_completion_or_timeout
           [HttpClosed (Some "EADDRINUSE")] [WssClosed None]).
  repeat constructor.
Defined.

End ShutdownFacts.

(** ** [getChatHistory] *)

Module ChatHistoryFacts.
Import ChatHistory.

Local Open Scope string_scope.

#[local] Instance newer_first_total : Total newer_first.
Proof. intros a b. unfold newer_first. lia. Qed.

#[local] Instance newer_first_trans : Transitive newer_first.
Proof. intros a b c. unfold newer_first. lia. Qed.

Lemma ordered_elem_of o rows r : r ∈ ordered o rows → r ∈ rows.
Proof.
  unfold ordered. destruct o as [[c ascending]|]; [|done].
  destruct (decide (c = "created_at")); [|done].
  destruct ascending; by rewrite merge_sort_Permutation.
Qed.

Lemma answer_elem_of table q r :
  r ∈ answer table q →
  r ∈ table ∧ ∀ f, f ∈ q_filters q → satisfies r f = true.
Proof.
  unfold answer. intros Hr.
  assert (r ∈ List.filter (λ r, forallb (satisfies r) (q_filters q)) table) as Hin.
  { apply (ordered_elem_of (q_order q)).
    destruct (q_limit q) as [n|]; [by eapply subseteq_take|done]. }
  apply list_elem_of_In, filter_In in Hin as [Hin Hall].
  split; [by apply list_elem_of_In|].
  intros f Hf. rewrite forallb_forall in Hall. by apply Hall, list_elem_of_In.
Qed.

Lemma answer_limit table q n : q_limit q = Some n → (length (answer table q) ≤ n)%nat.
Proof. unfold answer. intros ->. rewrite length_take. lia. Qed.

Lemma answer_newest_first table q :
  q_order q = Some ("created_at", false) →
  StronglySorted newer_first (answer table q).
Proof.
  unfold answer. intros ->. cbn [ordered]. rewrite decide_True by done.
  set (rows := merge_sort newer_first _).
  assert (StronglySorted newer_first rows) as Hs
    by apply (StronglySorted_merge_sort newer_first).
  destruct (q_limit q) as [n|]; [|done].
  rewrite <- (take_drop n rows) in Hs. by apply StronglySorted_app_1_l in Hs.
Qed.

Lemma column_personality_key r : column "personality_key" r = Text <$> personality_key r.
Proof. reflexivity. Qed.

Lemma column_created_at r : column "created_at" r = Some (Instant (created_at r)).
Proof. reflexivity. Qed.

Lemma column_user_id r : column "user_id" r = Some (Text (user_id r)).
Proof. reflexivity. Qed.

(** The query the function sends. *)
Lemma getChatHistory_query await twoHoursAgo userId personalityKey isDoctor :
  ∃ q, getChatHistory_try await twoHoursAgo userId personalityKey isDoctor
       = match await q with
         | Data data => inr data
         | Error error => inl error
         | Rejected reason => inl reason
         end
     ∧ q_from q = "conversations"
     ∧ q_order q = Some ("created_at", false)
     ∧ q_limit q = Some 20
     ∧ FilterEq "user_id" (Text userId) ∈ q_filters q
     ∧ (∀ key, personalityKey = Some key → key ≠ "" →
               FilterEq "personality_key" (Text key) ∈ q_filters q)
     ∧ (isDoctor = true → FilterGte "created_at" (Instant twoHoursAgo) ∈ q_filters q).
Proof.
  unfold getChatHistory_try. eexists. split; [reflexivity|].
  destruct isDoctor, personalityKey as [[|c key]|]; cbn;
    split_and!; try done; try set_solver.
Qed.

(** C10: [getChatHistory] returns a list whatever the store does: the
    empty list when the query comes back with an error or anything is
    thrown, and otherwise exactly the rows the store sent for its
    query, which asks for the conversations of the user (of the
    personality when a non-empty key is supplied, of the last two hours
    for a doctor), newest first, 20 at most.  From a store that answers
    the query, these are at most 20 rows of the table, all of the given
    user, all of the given personality when a non-empty key is
    supplied, newest first. *)
Theorem getChatHistory_returns_a_list_of_at_most_20
    (await : Query → Awaited) (table : list IConversation) (twoHoursAgo : Z)
    (userId : string) (personalityKey : option string) (isDoctor : bool) :
  (∃ rows, getChatHistory await twoHoursAgo userId personalityKey isDoctor = inr rows)
  ∧ getChatHistory await twoHoursAgo userId personalityKey isDoctor
    = match await {| q_from := "conversations"; q_select := "*";
                     q_filters :=
                       (FilterEq "user_id" (Text userId)
                        :: match personalityKey with
                           | Some (String _ _ as key) => [FilterEq "personality_key" (Text key)]
                           | _ => []
                           end
                        ++ if isDoctor then [FilterGte "created_at" (Instant twoHoursAgo)]
                           else [])%list;
                     q_order := Some ("created_at", false);
                     q_limit := Some 20%nat |} with
      | Data data => inr data
      | Error _ | Rejected _ => inr []
      end
  ∧ (∀ e, getChatHistory_try await twoHoursAgo userId personalityKey isDoctor = inl e →
          getChatHistory await twoHoursAgo userId personalityKey isDoctor = inr [])
  ∧ (∀ reason,
       getChatHistory (store table (Some reason)) twoHoursAgo userId personalityKey isDoctor
       = inr []
       ∧ getChatHistory (λ _, Rejected reason) twoHoursAgo userId personalityKey isDoctor
         = inr [])
  ∧ (∃ rows,
       getChatHistory (store table None) twoHoursAgo userId personalityKey isDoctor = inr rows
       ∧ (length rows ≤ 20)%nat
       ∧ rows ⊆ table
       ∧ Forall (λ r, user_id r = userId) rows
       ∧ (∀ key, personalityKey = Some key → key ≠ "" →
                 Forall (λ r, personality_key r = Some key) rows)
       ∧ (isDoctor = true → Forall (λ r, (twoHoursAgo ≤ created_at r)%Z) rows)
       ∧ StronglySorted newer_first rows).
Proof.
  split_and!.
  - unfold getChatHistory. destruct (getChatHistory_try _ _ _ _ _); eauto.
  - unfold getChatHistory, getChatHistory_try.
    destruct isDoctor, personalityKey as [[|c key]|]; cbn; by destruct (await _).
  - unfold getChatHistory. by intros e ->.
  - intros reason. unfold getChatHistory.
    destruct (getChatHistory_query (store table (Some reason)) twoHoursAgo
                userId personalityKey isDoctor) as (q & -> & _).
    destruct (getChatHistory_query (λ _, Rejected reason) twoHoursAgo
                userId personalityKey isDoctor) as (q' & -> & _).
    done.
  - unfold getChatHistory.
    destruct (getChatHistory_query (store table None) twoHoursAgo
                userId personalityKey isDoctor)
      as (q & -> & _ & Horder & Hlimit & Huser & Hkey & Hrecent).
    cbn [store]. eexists; split; [done|].
    split_and!.
    + by apply answer_limit.
    + intros r Hr. by apply answer_elem_of in Hr as [? _].
    + apply Forall_forall. intros r Hr. apply answer_elem_of in Hr as [_ Hr].
      specialize (Hr _ Huser). cbn [satisfies] in Hr. rewrite column_user_id in Hr.
      by apply bool_decide_eq_true in Hr.
    + intros key -> Hne. apply Forall_forall. intros r Hr.
      apply answer_elem_of in Hr as [_ Hr].
      specialize (Hr _ (Hkey key eq_refl Hne)). cbn [satisfies] in Hr.
      rewrite column_personality_key in Hr.
      destruct (personality_key r) as [k|]; [|done]. cbn in Hr.
      apply bool_decide_eq_true in Hr. by subst.
    + intros Hdoc. apply Forall_forall. intros r Hr.
      apply answer_elem_of in Hr as [_ Hr].
      specialize (Hr _ (Hrecent Hdoc)). cbn [satisfies] in Hr.
      rewrite column_created_at in Hr. by apply bool_decide_eq_true in Hr.
    + by apply answer_newest_first.
Qed.

End ChatHistoryFacts.

(** ** More on [createTtsBuffer] *)

Module FrameEncoderMore.
Import FrameEncoder FrameEncoderFacts.

Section WithEncoder.

Variable F : nat.
Context {Encoder : Type}.
Variable encode : Encoder → bytes → Encoder * option bytes.

Local Abbreviation encodePcmChunk := (FrameEncoder.encodePcmChunk F encode).
Local Abbreviation appends := (FrameEncoder.appends F encode).
Local Abbreviation windows := (FrameEncoder.windows F).

Lemma successes_length_le os : length (successes os) ≤ length os.
Proof.
  unfold successes. induction os as [|[w|] os IH]; cbn in *; lia.
Qed.

Lemma successes_all_some os :
  Forall is_Some os → length (successes os) = length os.
Proof.
  unfold successes. induction 1 as [|o os [w ->] _ IH]; cbn in *; [done|lia].
Qed.

Lemma encode_each_outcomes enc ws o :
  o ∈ (FrameEncoder.encode_each encode enc ws).2 → ∃ enc' w, o = (encode enc' w).2.
Proof.
  revert enc; induction ws as [|w ws IH]; intros enc; simpl; [by intros ?%elem_of_nil|].
  destruct (encode enc w) as [enc' o'] eqn:E. specialize (IH enc').
  destruct (FrameEncoder.encode_each encode enc' ws) as [enc'' os]. simpl in *.
  intros [->|Hin]%elem_of_cons; [|by apply IH].
  exists enc, w. by rewrite E.
Qed.

(** X1: the packets a run of calls returns, the bytes it consumes and
    the state it ends in depend on the bytes supplied, not on how they
    are cut into calls. *)
Theorem same_bytes_same_packets enc (calls calls' : list bytes) :
  0 < F →
  concat calls = concat calls' →
  ∃ fs n st,
    appends (createTtsBuffer enc) calls = Some (fs, n, st)
    ∧ appends (createTtsBuffer enc) calls' = Some (fs, n, st).
Proof.
  intros HF Hsame. rewrite !(appends_windows F encode) by (simpl; lia). cbv zeta.
  rewrite Hsame. destruct (FrameEncoder.encode_each _ _ _) as [enc' os]. by eexists _, _, _.
Qed.

(** X3: a call that does not complete a window returns no packet, does
    not touch the encoder and keeps every byte for later. *)
Theorem short_input_is_kept st rawPcm :
  length (leftover st) + length rawPcm < F →
  encodePcmChunk st rawPcm =
    Some {| frames := []; consumed := 0;
            after := {| leftover := leftover st ++ rawPcm; ttsEncoder := ttsEncoder st |} |}.
Proof.
  intros Hshort. rewrite (encodePcmChunk_windows F encode) by lia. cbv zeta.
  rewrite length_app, Nat.div_small by done. done.
Qed.

(** X4: a call returns at most one packet per complete window of
    [leftover ++ rawPcm], and exactly one per window when the encoder
    never throws. *)
Theorem one_packet_per_window_at_most st rawPcm :
  0 < F →
  ∃ r, encodePcmChunk st rawPcm = Some r
    ∧ length (frames r) ≤ (length (leftover st) + length rawPcm) / F
    ∧ ((∀ enc w, is_Some (encode enc w).2) →
       length (frames r) = (length (leftover st) + length rawPcm) / F).
Proof.
  intros HF. rewrite (encodePcmChunk_windows F encode) by done. cbv zeta.
  rewrite length_app.
  set (k := (length (leftover st) + length rawPcm) / F).
  pose proof (encode_each_length encode (ttsEncoder st) (windows k (leftover st ++ rawPcm))) as Hlen.
  pose proof (encode_each_outcomes (ttsEncoder st) (windows k (leftover st ++ rawPcm))) as Hout.
  destruct (FrameEncoder.encode_each _ _ _) as [enc' os]. simpl in *.
  rewrite (windows_length F) in Hlen.
  eexists; split; [done|]. simpl. split.
  - rewrite <- Hlen. apply successes_length_le.
  - intros Hok. rewrite <- Hlen. apply successes_all_some, Forall_forall.
    intros o Ho. destruct (Hout o Ho) as (e & w & ->). apply Hok.
Qed.

End WithEncoder.

Lemma windows_concat F n : ∀ l,
  n * F ≤ length l →
  concat (FrameEncoder.windows F n l) = take (n * F) l
  ∧ Forall (λ w, length w = F) (FrameEncoder.windows F n l).
Proof.
  induction n as [|n IH]; intros l Hn; simpl; [done|].
  destruct (IH (drop F l)) as [Hc Hall]; [rewrite length_drop; lia|].
  split.
  - rewrite Hc, <- take_take_drop. done.
  - constructor; [rewrite length_take; lia|done].
Qed.

Lemma encode_each_pass_through ws :
  FrameEncoder.encode_each PassThrough.encode () ws = ((), Some <$> ws).
Proof. induction ws as [|w ws IH]; simpl; [done|by rewrite IH]. Qed.

Lemma successes_some ws : successes (Some <$> ws) = ws.
Proof. unfold successes. induction ws as [|w ws IH]; cbn in *; [done|by rewrite IH]. Qed.

(** X2: no byte is lost, repeated or reordered.  With a codec that
    returns its input, the slices handed to the encoder over a run of
    calls, each of exactly [F] bytes, followed by the final [leftover],
    are the bytes that were pending at the start followed by the bytes
    supplied. *)
Theorem slices_then_leftover_are_the_input F st (calls : list bytes) :
  0 < F → length (leftover st) < F →
  ∃ fs n st',
    FrameEncoder.appends F PassThrough.encode st calls = Some (fs, n, st')
    ∧ concat fs ++ leftover st' = leftover st ++ concat calls
    ∧ Forall (λ slice, length slice = F) fs
    ∧ n = length (concat fs).
Proof.
  intros HF Hinv. rewrite (appends_windows F PassThrough.encode) by done. cbv zeta.
  destruct st as [l0 []]. cbn [leftover ttsEncoder].
  set (input := l0 ++ concat calls). set (k := length input / F).
  rewrite encode_each_pass_through, successes_some.
  assert (k * F ≤ length input) as Hk
    by (unfold k; rewrite Nat.mul_comm; apply Nat.Div0.mul_div_le).
  destruct (windows_concat F k input Hk) as [Hc Hall].
  eexists _, _, _. split; [done|]. simpl. rewrite Hc. split_and!.
  - apply take_drop.
  - done.
  - rewrite length_take. lia.
Qed.

(** X5: with a frame size of zero the loop never exits, however many
    rounds it is given, and the call does not return. *)
Theorem zero_frame_size_never_returns {Encoder : Type}
    (encode : Encoder → bytes → Encoder * option bytes) st rawPcm :
  (∀ fuel, FrameEncoder.encode_loop 0 encode fuel (leftover st ++ rawPcm) 0
             (ttsEncoder st) [] = None)
  ∧ FrameEncoder.encodePcmChunk 0 encode st rawPcm = None.
Proof.
  split; [intros fuel; apply encode_loop_zero|].
  unfold FrameEncoder.encodePcmChunk. cbv zeta. by rewrite encode_loop_zero.
Qed.

(** X1 on nine bytes and frames of four. *)
Lemma same_bytes_same_packets_witness :
  ∃ fs n st,
    FrameEncoder.appends 4 (counting_encode 1) (createTtsBuffer 0)
      [pcm [1; 2]; pcm [3; 4; 5; 6; 7]; pcm [8; 9]] = Some (fs, n, st)
    ∧ FrameEncoder.appends 4 (counting_encode 1) (createTtsBuffer 0)
        [pcm [1; 2; 3; 4; 5; 6; 7; 8]; pcm []; pcm [9]] = Some (fs, n, st).
Proof.
  apply (same_bytes_same_packets 4 (counting_encode 1) 0
           [pcm [1; 2]; pcm [3; 4; 5; 6; 7]; pcm [8; 9]]
           [pcm [1; 2; 3; 4; 5; 6; 7; 8]; pcm []; pcm [9]]);
    [lia | reflexivity].
Defined.

(** X2 from a buffer holding two pending bytes. *)
Lemma slices_then_leftover_witness :
  ∃ fs n st',
    FrameEncoder.appends 4 PassThrough.encode {| leftover := pcm [1; 2]; ttsEncoder := () |}
      [pcm [3]; pcm [4; 5; 6; 7; 8; 9; 10; 11]] = Some (fs, n, st')
    ∧ concat fs ++ leftover st'
      = leftover {| leftover := pcm [1; 2]; ttsEncoder := () |}
        ++ concat [pcm [3]; pcm [4; 5; 6; 7; 8; 9; 10; 11]]
    ∧ Forall (λ slice, length slice = 4) fs
    ∧ n = length (concat fs).
Proof.
  apply (slices_then_leftover_are_the_input 4 {| leftover := pcm [1; 2]; ttsEncoder := () |}
           [pcm [3]; pcm [4; 5; 6; 7; 8; 9; 10; 11]]);
    [lia | simpl; lia].
Defined.

(** X3 on three bytes joining two pending ones, with frames of eight. *)
Lemma short_input_witness :
  FrameEncoder.encodePcmChunk 8 (counting_encode 0)
    {| leftover := pcm [1; 2]; ttsEncoder := 0 |} (pcm [3; 4; 5]) =
  Some {| frames := []; consumed := 0;
          after := {| leftover := leftover {| leftover := pcm [1; 2]; ttsEncoder := 0 |}
                                  ++ pcm [3; 4; 5];
                      ttsEncoder := ttsEncoder {| leftover := pcm [1; 2]; ttsEncoder := 0 |} |} |}.
Proof.
  apply (short_input_is_kept 8 (counting_encode 0)
           {| leftover := pcm [1; 2]; ttsEncoder := 0 |} (pcm [3; 4; 5])).
  simpl. lia.
Defined.

(** X4 on ten bytes and frames of four, the first window failing. *)
Lemma one_packet_per_window_witness :
  ∃ r, FrameEncoder.encodePcmChunk 4 (counting_encode 0) (createTtsBuffer 0)
         (pcm [1; 2; 3; 4; 5; 6; 7; 8; 9; 10]) = Some r
    ∧ length (frames r)
      ≤ (length (leftover (createTtsBuffer 0))
         + length (pcm [1; 2; 3; 4; 5; 6; 7; 8; 9; 10])) / 4
    ∧ ((∀ enc w, is_Some (counting_encode 0 enc w).2) →
       length (frames r)
       = (length (leftover (createTtsBuffer 0))
          + length (pcm [1; 2; 3; 4; 5; 6; 7; 8; 9; 10])) / 4).
Proof.
  apply (one_packet_per_window_at_most 4 (counting_encode 0) (createTtsBuffer 0)
           (pcm [1; 2; 3; 4; 5; 6; 7; 8; 9; 10])).
  lia.
Defined.

End FrameEncoderMore.

(** ** Zeros, NaN and the finite numbers *)

Module FloatCases.
Import JsNumber JsNumberFacts.

Local Open Scope float_scope.

Lemma is_nan_spec x : is_nan x = true ↔ Prim2SF x = S754_nan.
Proof.
  unfold is_nan. rewrite FloatAxioms.eqb_spec.
  destruct (Prim2SF x) as [s|s| |s m e]; [by destruct s|by destruct s|done|].
  by rewrite SFeqb_finite.
Qed.

Lemma is_zero_spec x : is_zero x = true ↔ ∃ s, Prim2SF x = S754_zero s.
Proof.
  unfold is_zero. rewrite FloatAxioms.eqb_spec.
  change (Prim2SF PrimFloat.zero) with (S754_zero false).
  destruct (Prim2SF x) as [s|s| |s m e]; cbn.
  - split; [by eexists|done].
  - split; [by destruct s|by intros [? ?]].
  - split; [done|by intros [? ?]].
  - split; [by destruct s|by intros [? ?]].
Qed.

(** A finite number is a zero or has a mantissa and an exponent. *)
Lemma is_finite_spec x :
  is_finite x = true →
  (∃ s, Prim2SF x = S754_zero s) ∨ (∃ s m e, Prim2SF x = S754_finite s m e).
Proof.
  unfold is_finite, is_infinity, is_nan.
  rewrite !FloatAxioms.eqb_spec, FloatAxioms.abs_spec.
  change (Prim2SF PrimFloat.infinity) with (S754_infinity false).
  destruct (Prim2SF x) as [s|s| |s m e]; cbn.
  - intros _. left. by eexists.
  - by destruct s.
  - done.
  - intros _. right. by eexists _, _, _.
Qed.

Lemma add_zeros a b : is_zero a = true → is_zero b = true → is_zero (a + b) = true.
Proof.
  rewrite !is_zero_spec, FloatAxioms.add_spec. intros [sa ->] [sb ->].
  destruct sa, sb; by eexists.
Qed.

Lemma sub_zeros a b : is_zero a = true → is_zero b = true → is_zero (a - b) = true.
Proof.
  rewrite !is_zero_spec, FloatAxioms.sub_spec. intros [sa ->] [sb ->].
  destruct sa, sb; by eexists.
Qed.

Lemma mul_finite_zero a b : is_finite a = true → is_zero b = true → is_zero (a * b) = true.
Proof.
  intros Ha. rewrite !is_zero_spec, FloatAxioms.mul_spec. intros [sb ->].
  destruct (is_finite_spec a Ha) as [[s ->]|(s & m & e & ->)]; by eexists.
Qed.

Lemma mul_zero_finite a b : is_zero a = true → is_finite b = true → is_zero (a * b) = true.
Proof.
  intros Ha Hb. revert Ha. rewrite !is_zero_spec, FloatAxioms.mul_spec. intros [sa ->].
  destruct (is_finite_spec b Hb) as [[s ->]|(s & m & e & ->)]; by eexists.
Qed.

Lemma mul_nan_l a b : is_nan a = true → is_nan (a * b) = true.
Proof. rewrite !is_nan_spec, FloatAxioms.mul_spec. by intros ->. Qed.

Lemma mul_nan_r a b : is_nan b = true → is_nan (a * b) = true.
Proof.
  rewrite !is_nan_spec, FloatAxioms.mul_spec. intros ->. by destruct (Prim2SF a).
Qed.

Lemma add_nan_l a b : is_nan a = true → is_nan (a + b) = true.
Proof. rewrite !is_nan_spec, FloatAxioms.add_spec. by intros ->. Qed.

Lemma add_nan_r a b : is_nan b = true → is_nan (a + b) = true.
Proof.
  rewrite !is_nan_spec, FloatAxioms.add_spec. intros ->. by destruct (Prim2SF a).
Qed.

(** What is stored for a zero and for NaN. *)
Lemma clip_and_truncate_zero v : is_zero v = true → clip_and_truncate v = 0%Z.
Proof.
  rewrite is_zero_spec. intros [s Hs].
  unfold clip_and_truncate, hard_clip. rewrite !FloatAxioms.ltb_spec, Hs.
  rewrite SF_32767, SF_minus_32768. cbn [SFltb SFcompare]. unfold truncate. by rewrite Hs.
Qed.

Lemma clip_and_truncate_nan v : is_nan v = true → clip_and_truncate v = 0%Z.
Proof.
  rewrite is_nan_spec. intros Hs.
  unfold clip_and_truncate, hard_clip. rewrite !FloatAxioms.ltb_spec, Hs.
  rewrite SF_32767, SF_minus_32768. cbn [SFltb SFcompare]. unfold truncate. by rewrite Hs.
Qed.

End FloatCases.

(** ** More on [AudioFilter] *)

Module AudioFilterMore.
Import JsNumber AudioFilter JsNumberFacts AudioFilterFacts FloatCases.

Local Open Scope float_scope.

(** One sample of silence on a silent history. *)
Lemma silent_sample s :
  is_finite (st_highpassAlpha s) = true →
  is_finite (st_lowpassAlpha s) = true →
  is_finite (1 - st_lowpassAlpha s) = true →
  prevInputHP s = 0%Z →
  is_zero (prevOutputHP s) = true →
  is_zero (prevOutputLP s) = true →
  (filter_sample s 0).2 = 0%Z
  ∧ st_highpassAlpha (filter_sample s 0).1 = st_highpassAlpha s
  ∧ st_lowpassAlpha (filter_sample s 0).1 = st_lowpassAlpha s
  ∧ prevInputHP (filter_sample s 0).1 = 0%Z
  ∧ is_zero (prevOutputHP (filter_sample s 0).1) = true
  ∧ is_zero (prevOutputLP (filter_sample s 0).1) = true.
Proof.
  intros Hhp Hlp Hlp' Hin Hout Hlow. unfold filter_sample. cbn [fst snd].
  cbn [st_highpassAlpha st_lowpassAlpha prevInputHP prevOutputHP prevOutputLP].
  rewrite Hin. change (of_int16 0) with 0.
  assert (is_zero 0 = true) as H0 by done.
  assert (is_finite 8 = true) as H8 by done.
  assert (is_zero (st_highpassAlpha s * (prevOutputHP s + 0 - 0)) = true) as HyHP
    by (by apply mul_finite_zero, sub_zeros; [|apply add_zeros|]).
  assert (is_zero (st_lowpassAlpha s * (st_highpassAlpha s * (prevOutputHP s + 0 - 0))
                   + (1 - st_lowpassAlpha s) * prevOutputLP s) = true) as HyLP
    by (by apply add_zeros; apply mul_finite_zero).
  split_and!; try done.
  by apply clip_and_truncate_zero, mul_zero_finite.
Qed.

Lemma silence_in_silence_out n : ∀ s,
  is_finite (st_highpassAlpha s) = true →
  is_finite (st_lowpassAlpha s) = true →
  is_finite (1 - st_lowpassAlpha s) = true →
  prevInputHP s = 0%Z →
  is_zero (prevOutputHP s) = true →
  is_zero (prevOutputLP s) = true →
  (filter_all s (replicate n 0%Z)).2 = replicate n 0%Z
  ∧ prevInputHP (filter_all s (replicate n 0%Z)).1 = 0%Z
  ∧ is_zero (prevOutputHP (filter_all s (replicate n 0%Z)).1) = true
  ∧ is_zero (prevOutputLP (filter_all s (replicate n 0%Z)).1) = true.
Proof.
  induction n as [|n IH]; intros s Hhp Hlp Hlp' Hin Hout Hlow; cbn [replicate filter_all].
  - done.
  - destruct (silent_sample s) as (Hy & Ehp & Elp & Hin' & Hout' & Hlow'); try done.
    destruct (filter_sample s 0) as [s' y]. cbn [fst snd] in *. subst y.
    destruct (IH s') as (Hys & Hin'' & Hout'' & Hlow''); try done; try congruence.
    destruct (filter_all s' (replicate n 0%Z)) as [s'' ys]. cbn [fst snd] in *.
    by rewrite Hys.
Qed.

(** X6: silence is a fixed point.  When the alphas and
    [1 - lowpassAlpha] are finite numbers and the history is zero (as
    in a new object), a buffer of zeros stays a buffer of zeros and the
    history stays zero. *)
Theorem silence_is_a_fixed_point (s : FilterState) (n : nat) :
  is_finite (st_highpassAlpha s) = true →
  is_finite (st_lowpassAlpha s) = true →
  is_finite (1 - st_lowpassAlpha s) = true →
  prevInputHP s = 0%Z →
  is_zero (prevOutputHP s) = true →
  is_zero (prevOutputLP s) = true →
  (processAudioInPlace (fields_of s) (replicate n 0%Z)).2 = replicate n 0%Z
  ∧ prevInputHighpass (processAudioInPlace (fields_of s) (replicate n 0%Z)).1 = 0
  ∧ is_zero (prevOutputHighpass (processAudioInPlace (fields_of s) (replicate n 0%Z)).1) = true
  ∧ is_zero (prevOutputLowpass (processAudioInPlace (fields_of s) (replicate n 0%Z)).1) = true.
Proof.
  intros Hhp Hlp Hlp' Hin Hout Hlow.
  destruct (silence_in_silence_out n s) as (Hys & Hin' & Hout' & Hlow'); try done.
  rewrite processAudioInPlace_filter_all.
  destruct (filter_all s (replicate n 0%Z)) as [s' ys]. cbn [fst snd] in *.
  unfold fields_of. cbn [prevInputHighpass prevOutputHighpass prevOutputLowpass].
  by rewrite Hin'.
Qed.

Lemma nan_alpha_sample s x :
  is_nan (st_highpassAlpha s) = true ∨ is_nan (st_lowpassAlpha s) = true →
  (filter_sample s x).2 = 0%Z
  ∧ st_highpassAlpha (filter_sample s x).1 = st_highpassAlpha s
  ∧ st_lowpassAlpha (filter_sample s x).1 = st_lowpassAlpha s.
Proof.
  intros Hnan. unfold filter_sample. cbn [fst snd st_highpassAlpha st_lowpassAlpha].
  split; [|done]. apply clip_and_truncate_nan, mul_nan_l.
  destruct Hnan as [Hhp|Hlp].
  - by apply add_nan_l, mul_nan_r, mul_nan_l.
  - by apply add_nan_l, mul_nan_l.
Qed.

(** X7: with an alpha that is not a number (what a sample rate of 0
    or NaN can lead to), every sample of every buffer is stored as 0,
    whatever the input and the history. *)
Theorem nan_alpha_silences_everything (s : FilterState) (buffer : list Z) :
  is_nan (st_highpassAlpha s) = true ∨ is_nan (st_lowpassAlpha s) = true →
  (processAudioInPlace (fields_of s) buffer).2 = replicate (length buffer) 0%Z.
Proof.
  intros Hnan. rewrite processAudioInPlace_filter_all.
  revert s Hnan. induction buffer as [|x xs IH]; intros s Hnan; cbn [filter_all]; [done|].
  destruct (nan_alpha_sample s x Hnan) as (Hy & Ehp & Elp).
  destruct (filter_sample s x) as [s' y]. cbn [fst snd] in *. subst y.
  specialize (IH s'). rewrite Ehp, Elp in IH. specialize (IH Hnan).
  destruct (filter_all s' xs) as [s'' ys]. cbn [fst snd length replicate] in *.
  by rewrite IH.
Qed.

(** X8: the filter is causal.  What a call stores for the first
    samples of a buffer does not depend on the samples after them. *)
Theorem later_samples_do_not_change_earlier_outputs (s : FilterState) (buffer next : list Z) :
  take (length buffer) (processAudioInPlace (fields_of s) (buffer ++ next)).2
  = (processAudioInPlace (fields_of s) buffer).2.
Proof.
  pose proof (filter_all_shape s buffer) as (Hlen & _).
  rewrite !processAudioInPlace_filter_all, filter_all_app.
  destruct (filter_all s buffer) as [s1 out1]. cbn [fst snd] in *.
  destruct (filter_all s1 next) as [s2 out2]. cbn [snd].
  by rewrite <- Hlen, take_app_length.
Qed.

(** X6 on a new object with alphas 1/2 and 1/4. *)
Lemma silence_is_a_fixed_point_witness :
  (processAudioInPlace
     (fields_of {| st_highpassAlpha := 0.5; st_lowpassAlpha := 0.25;
                   prevInputHP := 0; prevOutputHP := 0; prevOutputLP := 0 |})
     (replicate 5 0%Z)).2 = replicate 5 0%Z.
Proof.
  apply (silence_is_a_fixed_point
           {| st_highpassAlpha := 0.5; st_lowpassAlpha := 0.25;
              prevInputHP := 0; prevOutputHP := 0; prevOutputLP := 0 |} 5);
    reflexivity.
Defined.

(** X7 on three loud samples. *)
Lemma nan_alpha_witness :
  (processAudioInPlace
     (fields_of {| st_highpassAlpha := nan; st_lowpassAlpha := 0.25;
                   prevInputHP := 12; prevOutputHP := 3; prevOutputLP := 7 |})
     [1000; -32768; 32767]%Z).2 = replicate (length [1000; -32768; 32767]%Z) 0%Z.
Proof.
  apply (nan_alpha_silences_everything
           {| st_highpassAlpha := nan; st_lowpassAlpha := 0.25;
              prevInputHP := 12; prevOutputHP := 3; prevOutputLP := 7 |}
           [1000; -32768; 32767]%Z).
  left. reflexivity.
Defined.

End AudioFilterMore.

(** ** More on [boostTtsVolumeInPlace] *)

Module VolumeShaperMore.
Import JsNumber VolumeShaper JsNumberFacts VolumeShaperFacts FloatCases Int16.

Local Open Scope float_scope.

(** A factor below zero is clamped to [+0]. *)
Lemma Math_max_zero_negative factor : (factor <? 0) = true → Math_max 0 factor = 0.
Proof.
  intros Hneg. unfold Math_max, is_nan, is_zero.
  revert Hneg. rewrite !FloatAxioms.ltb_spec, !FloatAxioms.eqb_spec.
  change (Prim2SF 0) with (S754_zero false).
  change (Prim2SF PrimFloat.zero) with (S754_zero false).
  destruct (Prim2SF factor) as [s|s| |s m e]; [done|by destruct s|done|].
  rewrite SFeqb_finite. by destruct s.
Qed.

Lemma boost_body_nan sample safeFactor : is_nan safeFactor = true → boost_body safeFactor sample = 0%Z.
Proof.
  intros Hnan. rewrite (proj1 (boost_body_clip_and_truncate safeFactor sample)).
  by apply clip_and_truncate_nan, mul_nan_r.
Qed.

(** X9: a factor below zero, or one that is not a number, silences the
    buffer. *)
Theorem negative_or_nan_factor_gives_silence (samples : list Z) (factor : float) :
  (factor <? 0) = true ∨ is_nan factor = true →
  Forall is_int16 samples →
  boostTtsVolumeInPlace samples (Some factor) = replicate (length samples) 0%Z.
Proof.
  intros Hfactor Hall. rewrite boostTtsVolumeInPlace_map. cbn [default].
  destruct Hfactor as [Hneg|Hnan].
  - rewrite Math_max_zero_negative by done.
    induction Hall as [|sample samples Hs _ IH]; [done|].
    cbn [fmap list_fmap length replicate]. cbn [fmap] in IH.
    by rewrite boost_body_zero, IH.
  - assert (is_nan (Math_max 0 factor) = true) as Hmax
      by (unfold Math_max; by rewrite Hnan, orb_true_r).
    clear Hall. induction samples as [|sample samples IH]; [done|].
    cbn [fmap list_fmap length replicate]. cbn [fmap] in IH.
    by rewrite boost_body_nan, IH.
Qed.

(** The two fixed factors, on every int16 value. *)
Lemma boost_body_two sample : is_int16 sample → boost_body 2 sample = saturate (2 * sample).
Proof.
  intros Hs. apply Z.eqb_eq.
  apply (all_from_spec (λ z, (boost_body 2 z =? saturate (2 * z))%Z)
           (Z.to_nat 65536) (-32768)%Z).
  - by vm_compute.
  - unfold is_int16 in Hs. lia.
Qed.

Lemma boost_body_one sample : is_int16 sample → boost_body 1 sample = sample.
Proof.
  intros Hs. apply Z.eqb_eq.
  apply (all_from_spec (λ z, (boost_body 1 z =? z)%Z) (Z.to_nat 65536) (-32768)%Z).
  - by vm_compute.
  - unfold is_int16 in Hs. lia.
Qed.

(** X10: called without a factor, the function doubles every sample
    and saturates at the ends of the int16 range. *)
Theorem default_factor_doubles_and_saturates (samples : list Z) :
  Forall is_int16 samples →
  boostTtsVolumeInPlace samples None = (λ sample, saturate (2 * sample)) <$> samples.
Proof.
  intros Hall. rewrite boostTtsVolumeInPlace_map. cbn [default].
  change (Math_max 0 2) with 2.
  induction Hall as [|sample samples Hs _ IH]; [done|].
  cbn [fmap list_fmap]. cbn [fmap] in IH. by rewrite boost_body_two, IH.
Qed.

(** X11: a factor of 1 leaves every int16 buffer as it is. *)
Theorem factor_one_changes_nothing (samples : list Z) :
  Forall is_int16 samples →
  boostTtsVolumeInPlace samples (Some 1) = samples.
Proof.
  intros Hall. rewrite boostTtsVolumeInPlace_map. cbn [default].
  change (Math_max 0 1) with 1.
  induction Hall as [|sample samples Hs _ IH]; [done|].
  cbn [fmap list_fmap]. cbn [fmap] in IH. by rewrite boost_body_one, IH.
Qed.

(** X9 with factor -0.5. *)
Lemma negative_factor_witness :
  boostTtsVolumeInPlace [300; -300; 32767]%Z (Some (-0.5))
  = replicate (length [300; -300; 32767]%Z) 0%Z.
Proof.
  apply (negative_or_nan_factor_gives_silence [300; -300; 32767]%Z (-0.5)).
  - left. reflexivity.
  - repeat constructor; unfold is_int16; lia.
Defined.

(** X10 on samples that do and do not saturate. *)
Lemma default_factor_witness :
  boostTtsVolumeInPlace [100; -16385; 16384; -3]%Z None
  = (λ sample, saturate (2 * sample)) <$> [100; -16385; 16384; -3]%Z.
Proof.
  apply (default_factor_doubles_and_saturates [100; -16385; 16384; -3]%Z).
  repeat constructor; unfold is_int16; lia.
Defined.

(** X11 on the ends of the range. *)
Lemma factor_one_witness :
  boostTtsVolumeInPlace [-32768; 0; 32767]%Z (Some 1) = [-32768; 0; 32767]%Z.
Proof.
  apply (factor_one_changes_nothing [-32768; 0; 32767]%Z).
  repeat constructor; unfold is_int16; lia.
Defined.

End VolumeShaperMore.

(** ** More on the upgrade handler *)

Module ConnectionGateMore.
Import JsString ConnectionGate ConnectionGateFacts.

Local Open Scope string_scope.

Section WithCollaborators.

Context {URL SupabaseClient User WebSocket : Type}.
Variable new_URL : string → string → Thrown + URL.
Variable searchParams_get : URL → string → option string.
Variable Deno_env_get : string → option string.
Variable createClient : option string → option string → ClientOptions → Thrown + SupabaseClient.
Variable authenticateUser : SupabaseClient → string → Thrown + User.
Variable user_email : User → Thrown + option string.
Variable handleUpgrade : Request → UpgradeOutcome (WebSocket := WebSocket).
Variable ws_socket : Request → list SocketOp.
Variable now : string.
Variable listeners :
  WebSocket → Context (SupabaseClient := SupabaseClient) (User := User) → Thrown + unit.

Local Abbreviation token_of := (ConnectionGate.token_of searchParams_get).
Local Abbreviation getSupabaseClient := (ConnectionGate.getSupabaseClient Deno_env_get createClient).
Local Abbreviation ws_effects :=
  (ConnectionGate.ws_effects (SupabaseClient := SupabaseClient) (User := User)
     (WebSocket := WebSocket) ws_socket).
Local Abbreviation upgrade_try :=
  (ConnectionGate.upgrade_try new_URL searchParams_get Deno_env_get createClient
     authenticateUser user_email handleUpgrade ws_socket now listeners).
Local Abbreviation on_upgrade :=
  (ConnectionGate.on_upgrade new_URL searchParams_get Deno_env_get createClient
     authenticateUser user_email handleUpgrade ws_socket now listeners).
Local Abbreviation parsed req :=
  (new_URL (default "/" (or_else (req_url req) None)) ("ws://" ++ interpolate (headers_host req))).
Local Abbreviation early :=
  (upgrade_try_early_throw new_URL searchParams_get Deno_env_get createClient
     authenticateUser user_email handleUpgrade ws_socket now listeners).

(** X12: no admission without authentication.  A connection event is
    emitted only for a request whose URL parsed, whose token is not
    empty, for which the scoped client was built and [authenticateUser]
    resolved, and whose handshake was completed; its context holds that
    client and that user, and it is the only event of the request. *)
Theorem admission_implies_authentication req ws ctx :
  (ws, ctx) ∈ connections (on_upgrade req).1 →
  ∃ url,
    parsed req = inr url
    ∧ token_of url req ≠ ""
    ∧ getSupabaseClient (token_of url req) = inr (supabase ctx)
    ∧ authenticateUser (supabase ctx) (token_of url req) = inr (user ctx)
    ∧ handleUpgrade req = Upgraded ws
    ∧ timestamp ctx = now
    ∧ connections (on_upgrade req).1 = [(ws, ctx)].
Proof.
  rewrite (connections_on_upgrade new_URL searchParams_get Deno_env_get createClient
             authenticateUser user_email handleUpgrade ws_socket now listeners req).
  destruct (connections_of_the_try new_URL searchParams_get Deno_env_get createClient
              authenticateUser user_email handleUpgrade ws_socket now listeners req)
    as [-> | (url & client & u & email & ws' & Hurl & Htok & Hclient & Hauth & _ & Hup & ->)].
  { by intros ?%elem_of_nil. }
  intros [= -> ->]%list_elem_of_singleton.
  exists url. cbn [supabase user timestamp]. by rewrite Hclient, Hauth.
Qed.

(** X13: the handler writes one response or none.  What reaches the
    socket in one request is the challenge 401 alone, or the bare 401
    alone, or the traffic of the ws library, or that traffic followed
    by the bare 401.  A 401 of the handler comes with the end of the
    socket, the challenge comes without any connection event, and a
    request leads to at most one connection event. *)
Theorem one_response_or_none req :
  (wire (on_upgrade req).1 = [challenge_response]
   ∧ destroyed (on_upgrade req).1 = true
   ∧ connections (on_upgrade req).1 = [])
  ∨ (wire (on_upgrade req).1 = [unauthorized_response]
     ∧ destroyed (on_upgrade req).1 = true
     ∧ connections (on_upgrade req).1 = [])
  ∨ (wire (on_upgrade req).1 = wire (ws_effects req)
     ∧ destroyed (on_upgrade req).1 = destroyed (ws_effects req)
     ∧ (length (connections (on_upgrade req).1) ≤ 1)%nat)
  ∨ (wire (on_upgrade req).1 = (wire (ws_effects req) ++ [unauthorized_response])%list
     ∧ destroyed (on_upgrade req).1 = true
     ∧ (length (connections (on_upgrade req).1) ≤ 1)%nat).
Proof.
  pose proof (thrown_gives_401 new_URL searchParams_get Deno_env_get createClient
                authenticateUser user_email handleUpgrade ws_socket now listeners req)
    as Hthrown.
  pose proof (returned_adds_nothing new_URL searchParams_get Deno_env_get createClient
                authenticateUser user_email handleUpgrade ws_socket now listeners req)
    as Hreturned.
  destruct (parsed req) as [e|url] eqn:Hurl.
  { right; left. apply (Hthrown [] e). unfold ConnectionGate.upgrade_try. by rewrite Hurl. }
  destruct (decide (token_of url req = "")) as [Htok|Htok].
  { left. apply (Hreturned [ConsoleLog "Upgrade failed: No token provided.";
                            SocketWrite challenge_response; SocketDestroy]).
    by apply upgrade_try_no_token with url. }
  destruct (getSupabaseClient (token_of url req)) as [e|client] eqn:Hclient.
  { right; left. apply (Hthrown [] e), (early req url e); [done..|by left]. }
  destruct (authenticateUser client (token_of url req)) as [e|u] eqn:Hauth.
  { right; left. apply (Hthrown [] e), (early req url e); [done..|]. right; left. eauto. }
  destruct (user_email u) as [e|email] eqn:Hemail.
  { right; left. apply (Hthrown [] e), (early req url e); [done..|]. right; right. eauto. }
  pose proof (upgrade_try_handshake new_URL searchParams_get Deno_env_get createClient
                authenticateUser user_email handleUpgrade ws_socket now listeners
                req url client u email Hurl Htok Hclient Hauth Hemail) as Htry.
  pose proof (other_handshake_views (SupabaseClient := SupabaseClient) (User := User)
                (WebSocket := WebSocket) ws_socket req
                ("User authenticated via token: " ++ interpolate email)) as (Hw & Hd & Hc).
  destruct (handleUpgrade req) as [ws| |e].
  - destruct (completed_handshake_views ws_socket req
                ("User authenticated via token: " ++ interpolate email)
                "WebSocket upgrade successful, emitting connection event."
                ws {| user := u; supabase := client; timestamp := now |})
      as (Hw' & Hd' & Hc').
    destruct (listeners ws _) as [e|[]].
    + right; right; right. destruct (Hthrown _ e Htry) as (-> & -> & ->).
      by rewrite Hw', Hc'.
    + right; right; left. destruct (Hreturned _ Htry) as (-> & -> & ->).
      by rewrite Hw', Hd', Hc'.
  - right; right; left. destruct (Hreturned _ Htry) as (-> & -> & ->).
    rewrite Hw, Hd, Hc. split_and!; [done..|cbn; lia].
  - right; right; right. destruct (Hthrown _ e Htry) as (-> & -> & ->).
    rewrite Hw, Hc. split_and!; [done..|cbn; lia].
Qed.

End WithCollaborators.

(** X12 with the stand-in collaborators. *)
Lemma admission_implies_authentication_witness :
  ∃ url,
    Demo.new_URL (default "/" (or_else (req_url (Demo.request "/?token=jwt-of-ada" None)) None))
      ("ws://" ++ interpolate (headers_host (Demo.request "/?token=jwt-of-ada" None)))
    = inr url
    ∧ ConnectionGate.token_of Demo.searchParams_get url (Demo.request "/?token=jwt-of-ada" None)
      ≠ "".
Proof.
  destruct (admission_implies_authentication
              Demo.new_URL Demo.searchParams_get Demo.Deno_env_get Demo.createClient
              Demo.authenticateUser Demo.user_email Demo.handleUpgrade Demo.ws_socket Demo.now
              Demo.listener_returns
              (Demo.request "/?token=jwt-of-ada" None) 7
              {| user := Some "ada@example.org";
                 supabase := ("https://project.supabase.co", "anon-key",
                              {| global_headers_Authorization := "Bearer jwt-of-ada" |});
                 timestamp := Demo.now |})
    as (url & Hurl & Htok & _).
  - apply list_elem_of_singleton. reflexivity.
  - exists url. split; [exact Hurl | exact Htok].
Defined.

End ConnectionGateMore.

(** ** More on the SIGINT handler *)

Module ShutdownMore.
Import Shutdown ShutdownFacts.

(** One more callback, from a closure that has not exited: the counter
    stays below [totalServers] or the process exits with 0 at
    [totalServers], and the timer exits with 1. *)
Lemma callback_alive c ev :
  exited c = None → serversClosed c < totalServers →
  match exited (callback c ev).1 with
  | None => serversClosed (callback c ev).1 < totalServers ∧ calls (callback c ev).2 = []
  | Some code =>
      calls (callback c ev).2 = [DenoExit code]
      ∧ ((code = 0%Z ∧ serversClosed (callback c ev).1 = totalServers)
         ∨ (code = 1%Z ∧ serversClosed (callback c ev).1 < totalServers))
  end.
Proof.
  intros Hex Hlt. unfold callback, checkExit. rewrite Hex. cbn [serversClosed exited].
  unfold totalServers in *.
  destruct ev as [err|err|].
  - destruct (decide (2 ≤ S (serversClosed c))) as [Hge|Hge]; cbn.
    + split; [by destruct err|]. left. split; [done|lia].
    + split; [lia|by destruct err].
  - destruct (decide (2 ≤ S (serversClosed c))) as [Hge|Hge]; cbn.
    + split; [by destruct err|]. left. split; [done|lia].
    + split; [lia|by destruct err].
  - cbn. split; [done|]. right. split; [done|lia].
Qed.

(** X14: whatever callbacks run after the signal, and in whatever
    order, [Deno.exit] is called at most once, after both closes were
    started and the timer armed.  The status is 0 only when the counter
    has reached [totalServers], and 1 only when it has not; while the
    process is alive the counter is below [totalServers]. *)
Theorem exit_is_unique_and_justified (evs : list Event) :
  match exited (shutdown evs).1 with
  | None =>
      serversClosed (shutdown evs).1 < totalServers
      ∧ calls (shutdown evs).2 = [ServerClose; WssClose; SetTimeout 5000]
  | Some code =>
      calls (shutdown evs).2 = [ServerClose; WssClose; SetTimeout 5000; DenoExit code]
      ∧ ((code = 0%Z ∧ serversClosed (shutdown evs).1 = totalServers)
         ∨ (code = 1%Z ∧ serversClosed (shutdown evs).1 < totalServers))
  end.
Proof.
  induction evs as [|ev evs IH] using rev_ind.
  - cbn. unfold totalServers. split; [lia|done].
  - rewrite shutdown_app. destruct (shutdown evs) as [c es]. cbn [fst snd] in IH.
    cbn [callbacks]. destruct (callback c ev) as [c' es'] eqn:Hcb. cbn [fst snd].
    rewrite (right_id_L [] (++)).
    destruct (exited c) as [code|] eqn:Hex.
    + rewrite (callback_after_exit c ev code Hex) in Hcb. injection Hcb as <- <-.
      by rewrite Hex, (right_id_L [] (++)).
    + destruct IH as [Hlt Hcalls].
      pose proof (callback_alive c ev Hex Hlt) as Hstep. rewrite Hcb in Hstep.
      cbn [fst snd] in Hstep. unfold calls in *. rewrite omap_app, Hcalls.
      destruct (exited c') as [code|].
      * destruct Hstep as [-> Hcode]. by split.
      * destruct Hstep as [Hlt' ->]. by split.
Qed.

(** A closure that is still alive after some callbacks has only seen
    close callbacks, fewer than [totalServers] of them. *)
Lemma alive_after_callbacks evs : ∀ c,
  exited c = None → serversClosed c < totalServers →
  exited (callbacks c evs).1 = None →
  Forall is_close evs
  ∧ serversClosed (callbacks c evs).1 = serversClosed c + length evs
  ∧ serversClosed c + length evs < totalServers.
Proof.
  induction evs as [|ev evs IH]; intros c Hex Hlt Halive; cbn [callbacks length] in *.
  - rewrite Nat.add_0_r. by split.
  - pose proof (callback_alive c ev Hex Hlt) as Hstep.
    assert (callback c ev =
            ({| serversClosed := S (serversClosed c); exited := None |}, (callback c ev).2)
            ∧ is_close ev) as [Hcb Hclose].
    { destruct (callback c ev) as [c' es] eqn:Hcb. cbn [fst snd] in *.
      destruct (exited c') as [code|] eqn:Hex'.
      - rewrite (callbacks_after_exit evs c' code Hex') in Halive. cbn [fst] in Halive.
        by rewrite Hex' in Halive.
      - revert Hcb. unfold callback, checkExit. rewrite Hex. cbn [serversClosed exited].
        destruct ev as [err|err|];
          [destruct (decide _)..|]; intros [= <- <-]; try done; cbn in Hex'; done. }
    rewrite Hcb in Halive |- *.
    destruct (IH {| serversClosed := S (serversClosed c); exited := None |})
      as (Hall & Hcount & Hbound); cbn [serversClosed exited].
    + done.
    + rewrite Hcb in Hstep. cbn [fst exited serversClosed] in Hstep. by destruct Hstep.
    + by destruct (callbacks _ evs).
    + destruct (callbacks _ evs) as [c'' es'']. cbn [fst serversClosed] in *.
      split; [by constructor|]. split; lia.
Qed.

(** X16: the process outlives the signal only while nothing decisive
    has run: if it has not exited after some callbacks, these were
    close callbacks only (the timer has not fired), fewer than
    [totalServers] of them, and the counter is their number. *)
Theorem alive_only_before_timer_and_last_close (evs : list Event) :
  exited (shutdown evs).1 = None →
  Forall is_close evs
  ∧ length evs < totalServers
  ∧ serversClosed (shutdown evs).1 = length evs.
Proof.
  intros Halive. unfold shutdown, on_SIGINT in *.
  destruct (alive_after_callbacks evs {| serversClosed := 0; exited := None |})
    as (Hall & Hcount & Hbound); cbn [serversClosed exited].
  - done.
  - unfold totalServers. lia.
  - by destruct (callbacks _ evs).
  - destruct (callbacks _ evs) as [c es]. cbn [fst serversClosed] in *.
    split; [done|]. split; lia.
Qed.

(** X16 after the HTTP server has closed with an error. *)
Lemma alive_only_before_timer_witness :
  Forall is_close [HttpClosed (Some "EADDRINUSE"%string)]
  ∧ length [HttpClosed (Some "EADDRINUSE"%string)] < totalServers
  ∧ serversClosed (shutdown [HttpClosed (Some "EADDRINUSE"%string)]).1
    = length [HttpClosed (Some "EADDRINUSE"%string)].
Proof.
  apply (alive_only_before_timer_and_last_close [HttpClosed (Some "EADDRINUSE"%string)]).
  reflexivity.
Defined.

End ShutdownMore.

(** ** More on [getChatHistory] *)

Module ChatHistoryMore.
Import ChatHistory ChatHistoryFacts.

Local Open Scope string_scope.

#[local] Instance newer_first_is_total : Total newer_first.
Proof. intros a b. unfold newer_first. lia. Qed.

#[local] Instance newer_first_is_transitive : Transitive newer_first.
Proof. intros a b c. unfold newer_first. lia. Qed.

Lemma sorted_prefix_dominates (rows : list IConversation) n x y :
  StronglySorted newer_first rows →
  x ∈ take n rows → y ∈ drop n rows → newer_first x y.
Proof.
  intros Hs Hx Hy. rewrite <- (take_drop n rows) in Hs.
  induction (take n rows) as [|a l IH]; [by apply elem_of_nil in Hx|].
  cbn [app] in Hs. apply StronglySorted_inv in Hs as [Hs Hall].
  apply elem_of_cons in Hx as [->|Hx]; [|by apply IH].
  rewrite Forall_forall in Hall. apply Hall, elem_of_app. by right.
Qed.

(** The rows that [answer] leaves out are those a filter rejects and,
    under a limit that is reached, rows no newer than any row kept. *)
Lemma answer_complete table q n r :
  q_order q = Some ("created_at", false) → q_limit q = Some n →
  r ∈ table → forallb (satisfies r) (q_filters q) = true →
  r ∈ answer table q
  ∨ (length (answer table q) = n ∧ Forall (λ x, newer_first x r) (answer table q)).
Proof.
  intros Horder Hlimit Hin Hsat. unfold answer. rewrite Horder, Hlimit.
  cbn [ordered]. rewrite decide_True by done.
  set (kept := List.filter _ table).
  assert (r ∈ kept) as Hkept.
  { apply list_elem_of_In, filter_In. split; [by apply list_elem_of_In|done]. }
  set (rows := merge_sort newer_first kept).
  assert (StronglySorted newer_first rows) as Hs
    by apply (StronglySorted_merge_sort newer_first).
  assert (r ∈ rows) as Hr by (unfold rows; by rewrite merge_sort_Permutation).
  rewrite <- (take_drop n rows) in Hr. apply elem_of_app in Hr as [Hr|Hr]; [by left|].
  right. split.
  - rewrite length_take. apply Nat.min_l.
    destruct (decide (n ≤ length rows)%nat) as [|Hgt]; [done|].
    rewrite drop_ge in Hr by lia. by apply elem_of_nil in Hr.
  - apply Forall_forall. intros x Hx. by apply (sorted_prefix_dominates rows n).
Qed.

(** X15: from a store that answers the query, [getChatHistory] leaves
    out a row of the user (of the personality when a non-empty key is
    given, and of the last two hours for a doctor) only when it returns
    20 rows that are all at least as new. *)
Theorem getChatHistory_omits_only_older_rows
    (table : list IConversation) (twoHoursAgo : Z)
    (userId : string) (personalityKey : option string) (isDoctor : bool)
    (rows : list IConversation) (r : IConversation) :
  getChatHistory (store table None) twoHoursAgo userId personalityKey isDoctor = inr rows →
  r ∈ table →
  user_id r = userId →
  (∀ key, personalityKey = Some key → key ≠ "" → personality_key r = Some key) →
  (isDoctor = true → (twoHoursAgo ≤ created_at r)%Z) →
  r ∈ rows
  ∨ (length rows = 20%nat ∧ Forall (λ x, (created_at r ≤ created_at x)%Z) rows).
Proof.
  intros Hget Hin Huser Hkey Hrecent.
  unfold getChatHistory, getChatHistory_try in Hget. cbv zeta in Hget.
  cbn [store] in Hget. injection Hget as <-.
  apply answer_complete; [by destruct isDoctor, personalityKey as [[|c key]|]..|done|].
  assert (satisfies r (FilterEq "user_id" (Text userId)) = true) as Hu.
  { cbn [satisfies]. rewrite column_user_id. by apply bool_decide_eq_true. }
  assert (isDoctor = true →
          satisfies r (FilterGte "created_at" (Instant twoHoursAgo)) = true) as Ht.
  { intros Hd. cbn [satisfies]. rewrite column_created_at.
    apply bool_decide_eq_true, Hrecent, Hd. }
  assert (∀ key, personalityKey = Some key → key ≠ "" →
                 satisfies r (FilterEq "personality_key" (Text key)) = true) as Hk.
  { intros key Hp Hne. cbn [satisfies]. rewrite column_personality_key, (Hkey key Hp Hne).
    cbn. by apply bool_decide_eq_true. }
  destruct isDoctor, personalityKey as [[|c key]|]; cbn [q_filters limit order eq gte
    add_filter select from forallb app];
    rewrite ?Hu, ?Ht, ?(Hk (String c key)) by done; done.
Qed.

(** X15 on a table of 21 rows of one user, the oldest of which is left
    out. *)
Lemma getChatHistory_omits_only_older_rows_witness :
  ChatHistoryDemo.row 0 ∈ take 20 (merge_sort newer_first ChatHistoryDemo.table)
  ∨ (length (take 20 (merge_sort newer_first ChatHistoryDemo.table)) = 20%nat
     ∧ Forall (λ x, (created_at (ChatHistoryDemo.row 0) ≤ created_at x)%Z)
         (take 20 (merge_sort newer_first ChatHistoryDemo.table))).
Proof.
  apply (getChatHistory_omits_only_older_rows ChatHistoryDemo.table 0 "u1" None false
           (take 20 (merge_sort newer_first ChatHistoryDemo.table)) (ChatHistoryDemo.row 0)).
  - vm_compute. reflexivity.
  - apply list_elem_of_here.
  - reflexivity.
  - discriminate.
  - discriminate.
Defined.

End ChatHistoryMore.
